(** * seed-dispersal: the paragraph chain of [index.js]

    A shallow embedding of the functions of [index.js] that select, clean and
    chain paragraphs, and the properties of them that the specification
    states.

    Conventions of the embedding.
    - A JavaScript string is the list of its UTF-16 code units, each a [Z]
      (what [split('')] enumerates and [charCodeAt] returns).
    - A JavaScript number that holds an integer is a [Z]; a value that may be
      [NaN] is an [option Z] with [None] for [NaN].  Every sum computed here
      stays far below 2^53 on strings a JavaScript engine can hold (see
      [getNextIndex_bound]), so the arithmetic of doubles is exact on them.
    - Regular expression literals are terms of [regex], run by a backtracking
      matcher that follows the priorities of the ECMAScript matcher (greedy
      and lazy quantifiers, leftmost alternative first, leftmost start).
    - Callbacks are results: [callback(err)] is [inl err],
      [callback(null, x)] is [inr x]; a [throw] that nothing catches is
      [Thrown]. *)

From Stdlib Require Import ZArith List Ascii String DecimalString Lia Bool.
From stdpp Require Import base option list gmap.

Local Open Scope Z_scope.

(** ** Strings *)

(** The code units of an ASCII literal. *)
Definition js (s : string) : list Z :=
  map (fun a => Z.of_nat (nat_of_ascii a)) (list_ascii_of_string s).

(** [String(n)] for an integer [n], and for [NaN]. *)
Definition numToString (n : option Z) : list Z :=
  match n with
  | Some z => js (NilZero.string_of_int (Z.to_int z))
  | None => js "NaN"
  end.

Definition LF : Z := 10.
Definition CR : Z := 13.

(** Line terminators of ECMAScript: LF, CR, LS, PS. *)
Definition isLineTerminator (c : Z) : bool :=
  (c =? 10) || (c =? 13) || (c =? 8232) || (c =? 8233).

(** White space of ECMAScript ([\s] and [trim]): the WhiteSpace code units
    and the line terminators. *)
Definition isWhiteSpace (c : Z) : bool :=
  (c =? 9) || (c =? 10) || (c =? 11) || (c =? 12) || (c =? 13) || (c =? 32)
  || (c =? 160) || (c =? 5760) || ((8192 <=? c) && (c <=? 8202))
  || (c =? 8232) || (c =? 8233) || (c =? 8239) || (c =? 8287)
  || (c =? 12288) || (c =? 65279).

(** Case mapping on the ASCII letters; other code units are left alone (the
    Unicode case tables are not part of the model). *)
Definition lowerChar (c : Z) : Z :=
  if (65 <=? c) && (c <=? 90) then c + 32 else c.

Definition upperChar (c : Z) : Z :=
  if (97 <=? c) && (c <=? 122) then c - 32 else c.

Definition toLowerCase (s : list Z) : list Z := map lowerChar s.

Fixpoint trimStart (s : list Z) : list Z :=
  match s with
  | c :: s' => if isWhiteSpace c then trimStart s' else s
  | [] => []
  end.

Definition trimEnd (s : list Z) : list Z := rev (trimStart (rev s)).

(** [String.prototype.trim] *)
Definition trim (s : list Z) : list Z := trimEnd (trimStart s).

Definition str_eqb (a b : list Z) : bool := bool_decide (a = b).

(** ** Index derivation *)

(** [paragraph.split('')]: one string per code unit. *)
Definition splitChars (s : list Z) : list (list Z) := map (fun c => [c]) s.

(** [char.charCodeAt(0)]; the strings [splitChars] yields are never empty, so
    the [NaN] of an empty string does not arise. *)
Definition charCodeAt0 (char : list Z) : Z :=
  match char with
  | c :: _ => c
  | [] => 0
  end.

Definition getNextIndex (paragraph : list Z) : Z :=
  fold_left (fun nextIndex char => nextIndex + charCodeAt0 char)
            (splitChars paragraph) 0.

(** The sum of a list of codes; on a string, the sum of its UTF-16 code
    units. *)
Fixpoint codeSum (text : list Z) : Z :=
  match text with
  | [] => 0
  | c :: rest => c + codeSum rest
  end.

(** The leading and the trailing half of a surrogate pair. *)
Definition isHighSurrogate (c : Z) : bool := (55296 <=? c) && (c <=? 56319).
Definition isLowSurrogate (c : Z) : bool := (56320 <=? c) && (c <=? 57343).

(** The code points of a string: a high surrogate directly followed by a low
    surrogate is one character outside the basic plane; every other code
    unit, a lone surrogate included, is a character of its own. *)
Fixpoint codePoints (s : list Z) : list Z :=
  match s with
  | [] => []
  | a :: rest =>
      match rest with
      | b :: rest' =>
          if isHighSurrogate a && isLowSurrogate b
          then (65536 + (a - 55296) * 1024 + (b - 56320)) :: codePoints rest'
          else a :: codePoints rest
      | [] => [a]
      end
  end.

(** The specification's wording of the derivation: the sum of the numeric
    code point of every character. *)
Definition codePointSum (text : list Z) : Z := codeSum (codePoints text).

(** Whether a string holds a surrogate pair, that is, a character outside the
    basic plane. *)
Fixpoint hasSurrogatePair (s : list Z) : bool :=
  match s with
  | [] => false
  | a :: rest =>
      match rest with
      | b :: _ => (isHighSurrogate a && isLowSurrogate b) || hasSurrogatePair rest
      | [] => false
      end
  end.

(** A string whose elements are UTF-16 code units. *)
Definition wfString (s : list Z) : Prop := Forall (fun c => 0 <= c < 65536) s.

(** ** Regular expressions *)

Inductive cset : Type :=
| CAny                (* [\s\S] *)
| CDot                (* .      *)
| CSpace              (* \s     *)
| CChr (c : Z)        (* a literal character *)
| CChrI (c : Z).      (* a literal character under the i flag *)

Definition cset_mem (cs : cset) (c : Z) : bool :=
  match cs with
  | CAny => true
  | CDot => negb (isLineTerminator c)
  | CSpace => isWhiteSpace c
  | CChr x => c =? x
  | CChrI x => (c =? lowerChar x) || (c =? upperChar x)
  end.

Inductive regex : Type :=
| REmpty
| RChar (cs : cset)
| RSeq (r1 r2 : regex)
| RAlt (r1 r2 : regex)
| RStar (greedy : bool) (r : regex)
| RGroup (n : nat) (r : regex)
| RBol                      (* ^ without the m flag *)
| REol (multiline : bool).  (* $ *)

(** [r+], [r?] and [r{2,}] in terms of the primitives; the order of the
    alternatives is the order in which the matcher tries them. *)
Definition RPlus (greedy : bool) (r : regex) : regex := RSeq r (RStar greedy r).
Definition ROpt (r : regex) : regex := RAlt r REmpty.
Definition RAtLeast2 (r : regex) : regex := RSeq r (RSeq r (RStar true r)).

Fixpoint RLit (s : list Z) : regex :=
  match s with
  | [] => REmpty
  | c :: s' => RSeq (RChar (CChr c)) (RLit s')
  end.

Fixpoint RLitI (s : list Z) : regex :=
  match s with
  | [] => REmpty
  | c :: s' => RSeq (RChar (CChrI c)) (RLitI s')
  end.

Definition captures := list (nat * list Z).

Definition orElse {A} (a b : option A) : option A :=
  match a with
  | Some x => Some x
  | None => b
  end.

Section Matcher.
Context {R : Type}.
(** Length of the whole input: the position of a suffix [s] is
    [n0 - length s]. *)
Variable n0 : nat.

(** One more iteration of [r*] from [s], or leave the loop; an iteration
    that consumes nothing is refused, as in RepeatMatcher.  [fuel] starts at
    [length s] and each iteration shortens the string, so it never runs
    out before the string does. *)
Fixpoint starLoop (iter : list Z -> captures ->
                          (list Z -> captures -> option R) -> option R)
         (greedy : bool) (k : list Z -> captures -> option R)
         (fuel : nat) (s : list Z) (caps : captures) : option R :=
  match fuel with
  | O => k s caps
  | S fuel' =>
      let again :=
        iter s caps (fun s' caps' =>
          if (length s' <? length s)%nat
          then starLoop iter greedy k fuel' s' caps'
          else None) in
      if greedy then orElse again (k s caps) else orElse (k s caps) again
  end.

(** [rmatch r s caps k]: match [r] at the front of [s], then continue with
    [k] on what is left; [None] is failure, which makes the caller
    backtrack. *)
Fixpoint rmatch (r : regex) (s : list Z) (caps : captures)
         (k : list Z -> captures -> option R) : option R :=
  match r with
  | REmpty => k s caps
  | RChar cs =>
      match s with
      | c :: s' => if cset_mem cs c then k s' caps else None
      | [] => None
      end
  | RSeq r1 r2 => rmatch r1 s caps (fun s' caps' => rmatch r2 s' caps' k)
  | RAlt r1 r2 => orElse (rmatch r1 s caps k) (rmatch r2 s caps k)
  | RStar greedy r1 =>
      starLoop (rmatch r1) greedy k (length s) s caps
  | RGroup n r1 =>
      rmatch r1 s caps (fun s' caps' =>
        k s' ((n, take (length s - length s') s) :: caps'))
  | RBol => if (length s =? n0)%nat then k s caps else None
  | REol multiline =>
      match s with
      | [] => k s caps
      | c :: _ => if multiline && isLineTerminator c then k s caps else None
      end
  end.
End Matcher.

(** A pattern without [^] and [$]: whether it matches at the front of a
    string does not depend on where the string sits in the input. *)
Fixpoint anchorFree (r : regex) : bool :=
  match r with
  | REmpty | RChar _ => true
  | RSeq r1 r2 | RAlt r1 r2 => anchorFree r1 && anchorFree r2
  | RStar _ r1 | RGroup _ r1 => anchorFree r1
  | RBol | REol _ => false
  end.

(** Every match of the pattern consumes at least one code unit. *)
Fixpoint consumes (r : regex) : bool :=
  match r with
  | RChar _ => true
  | RSeq r1 r2 => consumes r1 || consumes r2
  | RAlt r1 r2 => consumes r1 && consumes r2
  | RGroup _ r1 => consumes r1
  | REmpty | RStar _ _ | RBol | REol _ => false
  end.

(** Every match of the pattern consumes the code unit [c] somewhere. *)
Fixpoint requires (c : Z) (r : regex) : bool :=
  match r with
  | RChar (CChr x) => x =? c
  | RSeq r1 r2 => requires c r1 || requires c r2
  | RAlt r1 r2 => requires c r1 && requires c r2
  | RGroup _ r1 => requires c r1
  | _ => false
  end.

(** The first success of [k] on the suffixes of [s], the shortest suffix
    first: what a greedy [[\s\S]*] followed by [k] computes. *)
Fixpoint lastSuffix {R} (k : list Z -> captures -> option R)
         (s : list Z) (caps : captures) : option R :=
  match s with
  | [] => k [] caps
  | _ :: s' => orElse (lastSuffix k s' caps) (k s caps)
  end.

(** [l] is at the front of [s]. *)
Fixpoint startsWith (l s : list Z) : bool :=
  match l, s with
  | [], _ => true
  | a :: l', b :: s' => (b =? a) && startsWith l' s'
  | _ :: _, [] => false
  end.

(** [lit] occurs in [text]. *)
Definition occurs (lit text : list Z) : Prop :=
  exists pre post, text = pre ++ lit ++ post.

Fixpoint occursb (lit text : list Z) : bool :=
  startsWith lit text ||
  match text with
  | [] => false
  | _ :: text' => occursb lit text'
  end.

(** The code units of [s] up to its first line terminator, and the rest. *)
Fixpoint lineHead (s : list Z) : list Z :=
  match s with
  | c :: s' => if isLineTerminator c then [] else c :: lineHead s'
  | [] => []
  end.

Fixpoint lineRest (s : list Z) : list Z :=
  match s with
  | c :: s' => if isLineTerminator c then s else lineRest s'
  | [] => []
  end.

(** The final continuation: what is left of the input, and the captures. *)
Definition matched (s : list Z) (caps : captures) : option (list Z * captures) :=
  Some (s, caps).

Definition matchAt (n0 : nat) (r : regex) (s : list Z)
  : option (list Z * captures) :=
  rmatch n0 r s [] matched.

(** The leftmost start at which [r] matches: the index of the start, what
    follows the match, and the captures. *)
Fixpoint execFrom (n0 : nat) (r : regex) (i : nat) (s : list Z)
  : option (nat * list Z * captures) :=
  match matchAt n0 r s with
  | Some (rest, caps) => Some (i, rest, caps)
  | None =>
      match s with
      | [] => None
      | _ :: s' => execFrom n0 r (S i) s'
      end
  end.

(** The pattern matches at the front of [s]. *)
Definition matchesFront (r : regex) (s : list Z) : Prop :=
  is_Some (matchAt O r s).

(** The pattern matches nowhere in [text]. *)
Definition frontFree (r : regex) (text : list Z) : Prop :=
  forall s, s `suffix_of` text -> ~ matchesFront r s.

(** [r.exec(input)] *)
Definition exec (r : regex) (input : list Z) : option (nat * list Z * captures) :=
  execFrom (length input) r O input.

Definition capture (n : nat) (caps : captures) : list Z :=
  match list_find (fun p => fst p = n) caps with
  | Some (_, (_, v)) => v
  | None => []
  end.

(** [input.replace(r, repl)] for [r] without the g flag: the first match. *)
Definition replaceFirst (r : regex) (repl input : list Z) : list Z :=
  match exec r input with
  | Some (i, rest, _) => take i input ++ repl ++ rest
  | None => input
  end.

(** [input.replace(r, repl)] for [r] with the g flag, from a position on.
    [skip] counts the code units of the current match still to pass. *)
Fixpoint replaceAllFrom (n0 : nat) (r : regex) (repl : list Z)
         (skip : nat) (s : list Z) : list Z :=
  match s with
  | [] =>
      match skip, matchAt n0 r [] with
      | O, Some _ => repl
      | _, _ => []
      end
  | c :: s' =>
      match skip with
      | S n => replaceAllFrom n0 r repl n s'
      | O =>
          match matchAt n0 r s with
          | None => c :: replaceAllFrom n0 r repl O s'
          | Some (rest, _) =>
              match (length s - length rest)%nat with
              | O => repl ++ c :: replaceAllFrom n0 r repl O s'
              | S n => repl ++ replaceAllFrom n0 r repl n s'
              end
          end
      end
  end.

Definition replaceAll (r : regex) (repl input : list Z) : list Z :=
  replaceAllFrom (length input) r repl O input.

(** The loop of [input.split(r)] on a non-empty input.  [cur] is the piece
    under construction, reversed; [skip] counts the code units of the current
    separator still to pass. *)
Fixpoint splitLoop (n0 : nat) (r : regex) (skip : nat) (cur : list Z)
         (s : list Z) : list (list Z) :=
  match s with
  | [] => [rev cur]
  | c :: s' =>
      match skip with
      | S n => splitLoop n0 r n cur s'
      | O =>
          match matchAt n0 r s with
          | None => splitLoop n0 r O (c :: cur) s'
          | Some (rest, _) =>
              match (length s - length rest)%nat with
              | O =>
                  match cur with
                  | [] => splitLoop n0 r O [c] s'
                  | _ => rev cur :: splitLoop n0 r O [c] s'
                  end
              | S n => rev cur :: splitLoop n0 r n [] s'
              end
          end
      end
  end.

(** [input.split(r)] *)
Definition split (r : regex) (input : list Z) : list (list Z) :=
  match input with
  | [] =>
      match matchAt O r [] with
      | Some _ => []
      | None => [[]]
      end
  | _ => splitLoop (length input) r O [] input
  end.

(** ** Effects: the journal of [winston] and uncaught exceptions *)

(** The errors of [index.js], by the message each is built with; an error
    that the GitHub client hands to a callback is [ExternalError]. *)
Inductive Error : Type :=
| RateLimitError                  (* 'Rate limit probably reached' *)
| DialectError (id : option Z)    (* `Book ${id} is written in an unfamiliar dialect` *)
| IllegibleError (id : option Z)  (* `Book ${id} seems to be illegible` *)
| BookNotFoundError (id : option Z) (* `Book ${id} should be around here somewhere...` *)
| RepoNotFoundError (id : option Z) (* `Book ${id} seems to be missing from the library` *)
| ExternalError (message : list Z).

Inductive LogEntry : Type :=
| LogWaiting (timeout : Z)            (* `Waiting for ${timeout}ms` *)
| LogForbidden (bookId : option Z)    (* `Book ${bookId} is a forbidden text` *)
| LogError (err : Error)              (* winston.info(err.message) *)
| LogTranscribing (bookId : option Z). (* `Transcribing from book ${bookId}` *)

Inductive Exc (A : Type) : Type :=
| Thrown (e : Error)
| Ret (a : A).
Arguments Thrown {A} e.
Arguments Ret {A} a.

(** A computation writes journal entries and then returns or throws. *)
Definition M (A : Type) : Type := (list LogEntry * Exc A)%type.

Definition ret {A} (a : A) : M A := ([], Ret a).
Definition throw {A} (e : Error) : M A := ([], Thrown e).
Definition tell (l : LogEntry) : M unit := ([l], Ret tt).

Definition bind {A B} (m : M A) (f : A -> M B) : M B :=
  match m with
  | (l, Thrown e) => (l, Thrown e)
  | (l, Ret a) => let '(l', r) := f a in (l ++ l', r)
  end.

Notation "'do' m ; f" := (bind m (fun _ => f))
  (at level 10, m at level 100, f at level 200).

(** ** Configuration *)

Record Config : Type := {
  maxId : Z;            (* gutenberg.maxId *)
  excludes : list Z;    (* gutenberg.excludes *)
  startId : Z;          (* gutenberg.startId *)
  paragraphLimit : Z    (* paragraphLimit *)
}.

(** [a % b] on integers: the sign of the dividend, [NaN] for a zero
    divisor. *)
Definition jsRem (a b : Z) : option Z :=
  if b =? 0 then None else Some (Z.rem a b).

Definition clampBookId (cfg : Config) (id : Z) : option Z :=
  jsRem id (maxId cfg).

(** ** Rate limit *)

Record Headers : Type := {
  x_ratelimit_remaining : Z;
  x_ratelimit_reset : Z
}.

(** [now] is the reading of [Date.now()]; [None] is a missing [headers]
    argument. *)
Definition getRateTimeout (now : Z) (headers : option Headers) : M Z :=
  match headers with
  | None => throw RateLimitError
  | Some h =>
      if x_ratelimit_remaining h <? 1 then
        let timeout := x_ratelimit_reset h * 1000 - now in
        do tell (LogWaiting timeout);
        ret timeout
      else ret 0
  end.

(** ** Text normalizer *)

Fixpoint RCat (rs : list regex) : regex :=
  match rs with
  | [] => REmpty
  | [r] => r
  | r :: rs' => RSeq r (RCat rs')
  end.

Definition ws : regex := RChar CSpace.

(** [/Character set encoding: (.*?)$/m] *)
Definition encodingRegex : regex :=
  RCat [RLit (js "Character set encoding: ");
        RGroup 1 (RStar false (RChar CDot)); REol true].

(** [/Language: (.*?)$/m] *)
Definition languageRegex : regex :=
  RCat [RLit (js "Language: ");
        RGroup 1 (RStar false (RChar CDot)); REol true].

Definition getBookEncoding (text : list Z) : list Z :=
  match exec encodingRegex text with
  | None => js "ascii"
  | Some (_, _, caps) => toLowerCase (capture 1 caps)
  end.

Definition getBookLanguage (text : list Z) : list Z :=
  match exec languageRegex text with
  | None => js "english"
  | Some (_, _, caps) => toLowerCase (capture 1 caps)
  end.

(** The shape of the two patterns above, and of the two functions. *)
Definition declarationRegex (label : list Z) : regex :=
  RCat [RLit label; RGroup 1 (RStar false (RChar CDot)); REol true].

Definition readDeclaration (label fallback text : list Z) : list Z :=
  match exec (declarationRegex label) text with
  | None => fallback
  | Some (_, _, caps) => toLowerCase (capture 1 caps)
  end.

(** [text] declares [v] under [label]: the first place where [label] occurs
    in [text] is followed by [v] and then by the end of the line or of the
    text. *)
Definition declares (label text v : list Z) : Prop :=
  exists pre rest,
    text = pre ++ label ++ v ++ rest /\
    (forall pre' post', text = pre' ++ label ++ post' ->
                        (length pre <= length pre')%nat) /\
    Forall (fun c => isLineTerminator c = false) v /\
    (rest = [] \/ exists c rest', rest = c :: rest' /\ isLineTerminator c = true).

(** The specification's wording of the language declaration: the pattern of
    [getBookLanguage] matched without regard to case, that is
    [/Language: (.*?)$/mi]. *)
Definition getBookLanguage_spec (text : list Z) : list Z :=
  match exec (RCat [RLitI (js "Language: ");
                    RGroup 1 (RStar false (RChar CDot)); REol true]) text with
  | None => js "english"
  | Some (_, _, caps) => toLowerCase (capture 1 caps)
  end.

(** [start\s+of\s+(th(is|e)\s+)?project\s+gutenberg] and its [end]
    counterpart, under the i flag. *)
Definition gutenbergMarker (word : list Z) : regex :=
  RCat [RLitI word; RPlus true ws; RLitI (js "of"); RPlus true ws;
        ROpt (RGroup 1 (RCat [RLitI (js "th");
                              RGroup 2 (RAlt (RLitI (js "is")) (RLitI (js "e")));
                              RPlus true ws]));
        RLitI (js "project"); RPlus true ws; RLitI (js "gutenberg")].

Definition star : Z := 42.

(** [/^[\s\S]*start\s+of\s+(th(is|e)\s+)?project\s+gutenberg.*?[\*]+/i] *)
Definition headerRegex : regex :=
  RCat [RBol; RStar true (RChar CAny); gutenbergMarker (js "start");
        RStar false (RChar CDot); RPlus true (RChar (CChr star))].

(** [/[\*]*\s*end\s+of\s+(th(is|e)\s+)?project\s+gutenberg[\s\S]*$/i] *)
Definition footerRegex : regex :=
  RCat [RStar true (RChar (CChr star)); RStar true ws;
        gutenbergMarker (js "end");
        RStar true (RChar CAny); REol false].

(** The part of [headerRegex] after [^[\s\S]*], and the part of
    [footerRegex] before [[\s\S]*$]. *)
Definition headerTail : regex :=
  RCat [gutenbergMarker (js "start");
        RStar false (RChar CDot); RPlus true (RChar (CChr star))].

Definition footerCore : regex :=
  RCat [RStar true (RChar (CChr star)); RStar true ws;
        gutenbergMarker (js "end")].

(** [/^\s*produced\s+by[\s\S]+?(\r\n){2,}/i] *)
Definition producedByRegex : regex :=
  RCat [RBol; RStar true ws; RLitI (js "produced"); RPlus true ws;
        RLitI (js "by"); RPlus false (RChar CAny);
        RAtLeast2 (RGroup 1 (RLit [CR; LF]))].

Definition stripGutenbergBoilerplate (text : list Z) : list Z :=
  let output := replaceFirst headerRegex [] text in
  let output := replaceFirst footerRegex [] output in
  let output := replaceFirst producedByRegex [] output in
  let output := trim output in
  output.

Definition underscore : Z := 95.
Definition plus : Z := 43.

(** A text without underscore, plus sign and carriage return. *)
Definition plainText (text : list Z) : Prop :=
  Forall (fun c => c <> underscore /\ c <> plus /\ c <> CR) text.

(** The three [replace] calls that follow the stripping in
    [getGutenbergBookFromBlob]: [/_/g], [/\+/g] and [/\r\n/g]. *)
Definition fixText (strippedText : list Z) : list Z :=
  replaceAll (RLit [CR; LF]) [LF]
    (replaceAll (RChar (CChr plus)) []
       (replaceAll (RChar (CChr underscore)) [] strippedText)).

(** The cleaning of a decoded text: [strippedText], then [fixedText]. *)
Definition cleanText (decodedText : list Z) : list Z :=
  fixText (stripGutenbergBoilerplate decodedText).

(** ** GitHub and the Node runtime *)

Record Repo : Type := { repo_name : list Z; repo_full_name : list Z }.
Record File : Type := { file_path : list Z; file_sha : list Z }.
Record Blob : Type := { blob_content : list Z; blob_encoding : list Z }.

(** What the client passes to a callback [(err, data, headers)]; [now] is
    the reading of the clock while the callback runs. *)
Inductive Response (A : Type) : Type :=
| Failure (err : list Z)
| Reply (data : A) (headers : option Headers) (now : Z).
Arguments Failure {A} err.
Arguments Reply {A} data headers now.

Record GitHub : Type := {
  search_repos : list Z -> Response (list Repo);           (* q *)
  repo_tree : list Z -> list Z -> Response (list File);    (* repository, branch *)
  repo_blob : list Z -> list Z -> Response Blob            (* repository, sha *)
}.

(** [Buffer] and [iconv]; [None] stands for a thrown exception. *)
Class Runtime : Type := {
  buffer : Type;
  newBuffer : list Z -> list Z -> buffer;            (* new Buffer(content, encoding) *)
  bufferToString : buffer -> list Z;                 (* buf.toString() *)
  bufferToStringAs : list Z -> buffer -> option (list Z);  (* buf.toString(charset) *)
  iconvConvert : list Z -> buffer -> option (list Z) (* new Iconv(charset, 'utf-8').convert(buf).toString() *)
}.

Section Corpus.
Context `{Runtime}.
Variable github : GitHub.

Definition getGutenbergBookFromBlob (repo sha : list Z) (id : option Z)
  : M (Error + list Z) :=
  match repo_blob github repo sha with
  | Failure err => ret (inl (ExternalError err))
  | Reply data headers now =>
      do getRateTimeout now headers;
      let fullTextBuffer := newBuffer (blob_content data) (blob_encoding data) in
      let fullText := bufferToString fullTextBuffer in
      if negb (str_eqb (getBookLanguage fullText) (js "english")) then
        ret (inl (DialectError id))
      else
        let charset := getBookEncoding fullText in
        let decoded :=
          match bufferToStringAs charset fullTextBuffer with
          | Some decodedText => Some decodedText
          | None => iconvConvert charset fullTextBuffer
          end in
        match decoded with
        | None => ret (inl (IllegibleError id))
        | Some decodedText => ret (inr (cleanText decodedText))
        end
  end.

Definition findFile (tree : list File) (path : list Z) : option File :=
  find (fun file => str_eqb (file_path file) path) tree.

Definition getGutenbergBookFromRepo (repoName : list Z) (id : option Z)
  : M (Error + list Z) :=
  match repo_tree github repoName (js "master") with
  | Failure err => ret (inl (ExternalError err))
  | Reply tree headers now =>
      let result := findFile tree (numToString id ++ js ".txt") in
      let result :=
        match result with
        | None => findFile tree (numToString id ++ js "-8.txt")
        | Some _ => result
        end in
      let result :=
        match result with
        | None => findFile tree (numToString id ++ js "-0.txt")
        | Some _ => result
        end in
      match result with
      | None => ret (inl (BookNotFoundError id))
      | Some file =>
          do getRateTimeout now headers;
          getGutenbergBookFromBlob repoName (file_sha file) id
      end
  end.

(** [new RegExp(`.*_${id}$`)] *)
Definition repoRegex (id : option Z) : regex :=
  RCat [RStar true (RChar CDot); RLit (js "_" ++ numToString id); REol false].

Definition getGutenbergBook (id : option Z) : M (Error + list Z) :=
  match search_repos github (js "_" ++ numToString id ++ js "+user:GITenberg") with
  | Failure err => ret (inl (ExternalError err))
  | Reply items headers now =>
      let result :=
        find (fun repo => bool_decide (is_Some (exec (repoRegex id) (repo_name repo))))
             items in
      do getRateTimeout now headers;
      match result with
      | None => ret (inl (RepoNotFoundError id))
      | Some repo => getGutenbergBookFromRepo (repo_full_name repo) id
      end
  end.
End Corpus.






(** ** Paragraph selection *)

(** [/\n{2,}/] *)
Definition paragraphSeparator : regex := RAtLeast2 (RChar (CChr LF)).

(** [`${paragraphs[i]}`]: an element, or the text of [undefined] when [i] is
    [NaN], negative or past the end. *)
Definition elementText (paragraphs : list (list Z)) (i : option Z) : list Z :=
  match i with
  | Some z =>
      if z <? 0 then js "undefined"
      else default (js "undefined") (paragraphs !! Z.to_nat z)
  | None => js "undefined"
  end.

Definition getParagraph (text : list Z) (index : Z) : list Z :=
  let paragraphs := split paragraphSeparator text in
  let paragraphIndex := jsRem index (Z.of_nat (length paragraphs)) in
  elementText paragraphs paragraphIndex ++ [LF; LF].

(** ** The engine *)

(** The state that [addParagraph] threads through its calls: the text written
    to [book] so far, the arguments [index] and [count], the [cache] object,
    and the journal of [winston]. *)
Record State : Type := {
  book : list Z;
  index : Z;
  count : Z;
  cache : gmap Z bool;
  journal : list LogEntry
}.

Definition extraText : list Z := [LF].

(** [trySimilarParagraph(book, index, retry)]: the state in which [retry]
    calls [addParagraph] again. *)
Definition trySimilarParagraph (st : State) : State :=
  {| book := book st ++ extraText;
     index := index st + getNextIndex extraText;
     count := count st;
     cache := cache st;
     journal := journal st |}.

Definition logged (st : State) (l : list LogEntry) : State :=
  {| book := book st; index := index st; count := count st;
     cache := cache st; journal := journal st ++ l |}.

(** One call of [addParagraph], up to its next call of itself. *)
Inductive Outcome : Type :=
| Finished (st : State)              (* callback() *)
| Crashed (e : Error) (st : State)   (* an exception nothing catches *)
| Retried (st : State)               (* through trySimilarParagraph and retry *)
| Appended (st : State).             (* addParagraph(book, nextIndex, count - 1, ...) *)

(** [cache[index]] is truthy. *)
Definition visited (cache : gmap Z bool) (index : Z) : bool :=
  bool_decide (cache !! index = Some true).

(** [config.get('gutenberg.excludes').indexOf(bookId) !== -1] *)
Definition excluded (cfg : Config) (bookId : option Z) : bool :=
  match bookId with
  | Some b => existsb (Z.eqb b) (excludes cfg)
  | None => false
  end.

Definition outcomeState (o : Outcome) : State :=
  match o with
  | Finished st | Crashed _ st | Retried st | Appended st => st
  end.

Section Engine.
Context `{Runtime}.
Variable cfg : Config.

Definition addParagraph (github : GitHub) (st : State) : Outcome :=
  if count st <? 1 then Finished st
  else if visited (cache st) (index st) then Retried (trySimilarParagraph st)
  else
    let bookId := clampBookId cfg (index st) in
    if excluded cfg bookId then
      Retried (trySimilarParagraph (logged st [LogForbidden bookId]))
    else
      match getGutenbergBook github bookId with
      | (l, Thrown e) => Crashed e (logged st l)
      | (l, Ret (inl err)) =>
          Retried (trySimilarParagraph (logged st (l ++ [LogError err])))
      | (l, Ret (inr result)) =>
          let paragraph := getParagraph result (index st) in
          Appended
            {| book := book st ++ paragraph;
               index := getNextIndex paragraph;
               count := count st - 1;
               cache := <[index st := true]> (cache st);
               journal := journal st ++ l ++ [LogTranscribing bookId] |}
      end.

(** The three situations in which [addParagraph] calls
    [trySimilarParagraph]: the seed is in the cache, the book is excluded,
    or [getGutenbergBook] calls back with an error. *)
Definition retryCondition (github : GitHub) (st : State) : Prop :=
  visited (cache st) (index st) = true \/
  excluded cfg (clampBookId cfg (index st)) = true \/
  exists l err,
    getGutenbergBook github (clampBookId cfg (index st)) = (l, Ret (inl err)).

(** The state in which [createBook] first calls [addParagraph]. *)
Definition createBook : State :=
  {| book := []; index := startId cfg; count := paragraphLimit cfg;
     cache := ∅; journal := [] |}.

(** [run n st st']: from [st], calls of [addParagraph] that appended [n]
    paragraphs lead to [st'], whatever GitHub answered on the way. *)
Inductive run : nat -> State -> State -> Prop :=
| run_here st : run O st st
| run_retry github n st st' st'' :
    addParagraph github st = Retried st' -> run n st' st'' -> run n st st''
| run_append github n st st' st'' :
    addParagraph github st = Appended st' -> run n st' st'' -> run (S n) st st''.
End Engine.

(** ** Sample configuration, runtime and GitHub answers

    Concrete inputs on which the properties below are evaluated. *)
Module Sample.

(** The lines of a text, joined by LF. *)
Fixpoint jsLines (l : list (list Z)) : list Z :=
  match l with
  | [] => []
  | [x] => x
  | x :: l' => x ++ LF :: jsLines l'
  end.

(** A runtime whose buffers hold code units: 'ascii' and 'utf-8' decode as
    they are, 'iso-8859-1' only through iconv, anything else throws. *)
Definition runtime : Runtime :=
  {| buffer := list Z;
     newBuffer := fun content _ => content;
     bufferToString := fun b => b;
     bufferToStringAs := fun charset b =>
       if str_eqb charset (js "ascii") || str_eqb charset (js "utf-8")
       then Some b else None;
     iconvConvert := fun charset b =>
       if str_eqb charset (js "iso-8859-1") then Some b else None |}.

Definition cfg : Config :=
  {| maxId := 100; excludes := [42]; startId := 42; paragraphLimit := 2 |}.

Definition quota : option Headers :=
  Some {| x_ratelimit_remaining := 59; x_ratelimit_reset := 1700000000 |}.

Definition spent : option Headers :=
  Some {| x_ratelimit_remaining := 0; x_ratelimit_reset := 1700000000 |}.

Definition bookText : list Z :=
  jsLines [js "Title: Seeds"; js "Language: English"; js "";
           js "*** START OF THIS PROJECT GUTENBERG EBOOK SEEDS ***"; js "";
           js "First paragraph."; js ""; js "Second paragraph,"; js "second line."; js "";
           js "End of the Project Gutenberg EBook of Seeds"; js "licence"].

Definition frenchText : list Z :=
  jsLines [js "Title: Graines"; js "Language: French"; js ""; js "Un paragraphe."].

Definition oddText : list Z :=
  jsLines [js "Language: English"; js "Character set encoding: KOI8-R"; js ""; js "x"].

(** GitHub holding one repository for book 52, with one text file. *)
Definition library (fileName : string) (text : list Z)
           (h1 h2 h3 : option Headers) : GitHub :=
  {| search_repos := fun q =>
       if str_eqb q (js "_52+user:GITenberg")
       then Reply [{| repo_name := js "Seeds_52";
                      repo_full_name := js "GITenberg/Seeds_52" |}] h1 1699999990000
       else Reply [] h1 1699999990000;
     repo_tree := fun repo branch =>
       if str_eqb repo (js "GITenberg/Seeds_52") && str_eqb branch (js "master")
       then Reply [{| file_path := js "README.rst"; file_sha := js "aa" |};
                   {| file_path := js fileName; file_sha := js "bb" |}] h2 1699999990000
       else Failure (js "Not Found");
     repo_blob := fun repo sha =>
       if str_eqb sha (js "bb")
       then Reply {| blob_content := text; blob_encoding := js "utf-8" |} h3 1699999990000
       else Failure (js "Not Found") |}.

Definition github : GitHub := library "52.txt" bookText quota quota quota.

Definition state (seed : Z) : State :=
  {| book := js "so far"; index := seed; count := 2; cache := ∅; journal := [] |}.

(** A state whose seed is already in the cache. *)
Definition visitedState : State :=
  {| book := js "so far"; index := 52; count := 2;
     cache := {[ 52 := true ]}; journal := [] |}.

(** A French book whose declaration is written in lower case. *)
Definition lowerCaseText : list Z :=
  jsLines [js "Title: Graines"; js "language: French"; js ""; js "Un paragraphe."].

(** A state in which the requested paragraphs are all written. *)
Definition doneState : State :=
  {| book := js "so far"; index := 52; count := 0; cache := ∅; journal := [] |}.

(** GitHub answering the search without headers. *)
Definition throttled : GitHub := library "52.txt" bookText None quota quota.

(** A state in which one paragraph is still to be written. *)
Definition lastState : State :=
  {| book := js "so far"; index := 52; count := 1; cache := ∅; journal := [] |}.

(** GitHub answering the search with four repositories, of which the third
    is the first whose name ends in _52. *)
Definition shelf : list Repo :=
  [{| repo_name := js "Atlas_152"; repo_full_name := js "GITenberg/Atlas_152" |};
   {| repo_name := js "Seeds_52_notes";
      repo_full_name := js "GITenberg/Seeds_52_notes" |};
   {| repo_name := js "Seeds_52"; repo_full_name := js "GITenberg/Seeds_52" |};
   {| repo_name := js "Copy_52"; repo_full_name := js "GITenberg/Copy_52" |}].

Definition crowded : GitHub :=
  {| search_repos := fun _ => Reply shelf quota 1699999990000;
     repo_tree := repo_tree github;
     repo_blob := repo_blob github |}.

(** The lines of a text, joined by CR LF. *)
Fixpoint dosLines (l : list (list Z)) : list Z :=
  match l with
  | [] => []
  | [x] => x
  | x :: l' => x ++ CR :: LF :: dosLines l'
  end.

(** A book with CR LF line ends, a Produced-by block, underscores around a
    word and a plus sign. *)
Definition dosText : list Z :=
  dosLines [js "Title: Seeds";
            js "*** START OF THIS PROJECT GUTENBERG EBOOK SEEDS ***"; js "";
            js "Produced by A. Gardener"; js ""; js "";
            js "A _fine_ seed + soil."; js "Second line."; js "";
            js "Last paragraph."; js "";
            js "End of the Project Gutenberg EBook of Seeds"; js "licence"].

End Sample.

(** ** Notions used to state further properties *)

(** Every CR LF pair replaced by LF, from left to right. *)
Fixpoint crlfToLf (s : list Z) : list Z :=
  match s with
  | [] => []
  | a :: s' =>
      match s' with
      | b :: s'' =>
          if (a =? CR) && (b =? LF) then LF :: crlfToLf s''
          else a :: crlfToLf s'
      | [] => [a]
      end
  end.

(** A text that neither starts nor ends with white space. *)
Definition trimmed (s : list Z) : Prop :=
  (forall c, head s = Some c -> isWhiteSpace c = false) /\
  (forall c, last s = Some c -> isWhiteSpace c = false).

(** [joined pieces text]: [text] is the pieces in order, with a run of two or
    more newlines between each two neighbours. *)
Inductive joined : list (list Z) -> list Z -> Prop :=
| joined_one p : joined [p] p
| joined_more p m pieces text :
    joined pieces text ->
    joined (p :: pieces) (p ++ replicate (S (S m)) LF ++ text).

(** A check of [frontFree] by evaluation. *)
Fixpoint matchesNowhere (r : regex) (s : list Z) : bool :=
  match matchAt O r s with
  | Some _ => false
  | None =>
      match s with
      | [] => true
      | _ :: s' => matchesNowhere r s'
      end
  end.

(** * Properties *)

(** ** The matcher *)

Lemma suffix_cons_case (s' s : list Z) (c : Z) :
  s' `suffix_of` c :: s -> s' = c :: s \/ s' `suffix_of` s.
Proof.
  intros [[|a pre] E]; simpl in E.
  - left. done.
  - right. injection E as _ ->. by exists pre.
Qed.

Section MatcherProperties.
Context {R : Type}.
Implicit Types (k : list Z -> captures -> option R) (s : list Z) (caps : captures).

Lemma orElse_Some {A} (a b : option A) x :
  orElse a b = Some x -> a = Some x \/ b = Some x.
Proof. destruct a; simpl; auto. Qed.

Lemma orElse_None_r {A} (a : option A) : orElse a None = a.
Proof. by destruct a. Qed.

Lemma orElse_is_Some {A} (a b : option A) :
  is_Some (orElse a b) <-> is_Some a \/ is_Some b.
Proof.
  destruct a as [x|]; simpl; split; eauto.
  - intros [[? [=]]|Hb]; done.
Qed.

(** Either order of trying one more iteration and leaving the loop succeeds
    exactly when one of the two does. *)
Lemma starStep_is_Some {A} (greedy : bool) (again leave : option A) :
  is_Some (if greedy then orElse again leave else orElse leave again)
  <-> is_Some again \/ is_Some leave.
Proof. destruct greedy; rewrite orElse_is_Some; tauto. Qed.

Lemma starStep_Some {A} (greedy : bool) (again leave : option A) x :
  (if greedy then orElse again leave else orElse leave again) = Some x ->
  again = Some x \/ leave = Some x.
Proof. destruct greedy; intros Hx; apply orElse_Some in Hx; tauto. Qed.

Lemma rmatch_RChar_cons n0 cs c s caps k :
  rmatch n0 (RChar cs) (c :: s) caps k = if cset_mem cs c then k s caps else None.
Proof. reflexivity. Qed.

Lemma rmatch_RChar_nil n0 cs caps k : rmatch n0 (RChar cs) [] caps k = None.
Proof. reflexivity. Qed.

(** A match ends in a call of the continuation on a suffix of the string. *)
Lemma rmatch_inv n0 r : forall s caps k x,
  rmatch n0 r s caps k = Some x ->
  exists s' caps', s' `suffix_of` s /\ k s' caps' = Some x.
Proof.
  induction r as [|cs|r1 IH1 r2 IH2|r1 IH1 r2 IH2|greedy r1 IH1|n r1 IH1| |m];
    intros s caps k x; cbn [rmatch].
  - eauto.
  - destruct s as [|c s]; [done|]. destruct (cset_mem cs c); [|done].
    intros Hk. exists s, caps. split; [apply suffix_cons_r; done|done].
  - intros H1. apply IH1 in H1 as (s1 & c1 & Hs1 & H2).
    apply IH2 in H2 as (s2 & c2 & Hs2 & Hk).
    exists s2, c2. split; [by etrans|done].
  - intros Hx. apply orElse_Some in Hx as [Hx|Hx]; eauto.
  - generalize (length s) as fuel. intros fuel. revert s caps.
    induction fuel as [|fuel IHf]; intros s caps; cbn [starLoop]; [eauto|].
    intros Hx. apply starStep_Some in Hx as [Hx|Hx]; [|eauto].
    apply IH1 in Hx as (s1 & c1 & Hs1 & Hx).
    destruct (length s1 <? length s)%nat; [|done].
    apply IHf in Hx as (s2 & c2 & Hs2 & Hk).
    exists s2, c2. split; [by etrans|done].
  - intros Hx. apply IH1 in Hx as (s1 & c1 & Hs1 & Hk). eauto.
  - destruct (length s =? n0)%nat; [eauto|done].
  - destruct s as [|c s]; [eauto|].
    destruct (m && isLineTerminator c); [eauto|done].
Qed.

(** If the continuation fails on every suffix, the match fails. *)
Lemma rmatch_None n0 r s caps k :
  (forall s' caps', s' `suffix_of` s -> k s' caps' = None) ->
  rmatch n0 r s caps k = None.
Proof.
  intros Hk. destruct (rmatch n0 r s caps k) as [x|] eqn:E; [|done].
  apply rmatch_inv in E as (s' & c' & Hs & E). rewrite Hk in E; done.
Qed.

(** The match depends on the continuation only through the suffixes of the
    string. *)
Lemma rmatch_cont_ext n0 r : forall s caps k k',
  (forall s' c', s' `suffix_of` s -> k s' c' = k' s' c') ->
  rmatch n0 r s caps k = rmatch n0 r s caps k'.
Proof.
  induction r as [|cs|r1 IH1 r2 IH2|r1 IH1 r2 IH2|greedy r1 IH1|n r1 IH1| |m];
    intros s caps k k' Hk; cbn [rmatch].
  - by apply Hk.
  - destruct s as [|c s]; [done|]. destruct (cset_mem cs c); [|done].
    apply Hk. by apply suffix_cons_r.
  - apply IH1. intros s1 c1 Hs1. apply IH2. intros s2 c2 Hs2.
    apply Hk. by etrans.
  - by rewrite (IH1 s caps k k' Hk), (IH2 s caps k k' Hk).
  - generalize (length s) as fuel. intros fuel. revert s caps Hk.
    induction fuel as [|fuel IHf]; intros s caps Hk; cbn [starLoop];
      rewrite (Hk s caps) by done; [done|].
    rewrite (IH1 s caps _
               (fun s' caps' =>
                  if (length s' <? length s)%nat
                  then starLoop (rmatch n0 r1) greedy k' fuel s' caps'
                  else None)); [done|].
    intros s1 c1 Hs1. destruct (length s1 <? length s)%nat; [|done].
    apply IHf. intros s2 c2 Hs2. apply Hk. by etrans.
  - apply IH1. intros s1 c1 Hs1. by apply Hk.
  - destruct (length s =? n0)%nat; [by apply Hk|done].
  - destruct s as [|c s]; [by apply Hk|].
    destruct (m && isLineTerminator c); [by apply Hk|done].
Qed.

(** The fuel of [starLoop] never runs out: any amount that covers the string
    gives the same result. *)
Lemma starLoop_fuel n0 r greedy k : forall n s caps fuel1 fuel2,
  (length s <= n)%nat -> (length s <= fuel1)%nat -> (length s <= fuel2)%nat ->
  starLoop (rmatch n0 r) greedy k fuel1 s caps
  = starLoop (rmatch n0 r) greedy k fuel2 s caps.
Proof.
  assert (Hstuck : forall fuel s caps,
             starLoop (rmatch n0 r) greedy k (S fuel) s caps =
             let again := rmatch n0 r s caps (fun s' c' =>
                            if (length s' <? length s)%nat
                            then starLoop (rmatch n0 r) greedy k fuel s' c'
                            else None) in
             if greedy then orElse again (k s caps) else orElse (k s caps) again)
    by reflexivity.
  assert (Hnil : forall fuel caps,
             starLoop (rmatch n0 r) greedy k fuel [] caps = k [] caps).
  { intros [|fuel] caps; [done|]. rewrite Hstuck. cbn zeta.
    rewrite rmatch_None; [by destruct greedy; rewrite ?orElse_None_r|].
    intros s' c' _. by destruct (Nat.ltb_spec (length s') (length (@nil Z)));
      [simpl in *; lia|]. }
  induction n as [|n IH]; intros s caps fuel1 fuel2 Hn H1 H2.
  - destruct s; [|simpl in Hn; lia]. by rewrite !Hnil.
  - destruct s as [|c s]; [by rewrite !Hnil|].
    destruct fuel1 as [|fuel1]; [simpl in H1; lia|].
    destruct fuel2 as [|fuel2]; [simpl in H2; lia|].
    rewrite !Hstuck. cbn zeta.
    rewrite (rmatch_cont_ext n0 r (c :: s) caps _
               (fun s' c' => if (length s' <? length (c :: s))%nat
                             then starLoop (rmatch n0 r) greedy k fuel2 s' c'
                             else None)); [done|].
    intros s' c' Hs. destruct (Nat.ltb_spec (length s') (length (c :: s))); [|done].
    simpl in *. apply IH; lia.
Qed.

(** The loop of [r*] as RepeatMatcher has it, without fuel: try one more
    iteration that consumes something and loop, or leave, in the order that
    greediness fixes. *)
Lemma rmatch_star_step n0 greedy r s caps k :
  rmatch n0 (RStar greedy r) s caps k =
    let again := rmatch n0 r s caps (fun s' c' =>
                   if (length s' <? length s)%nat
                   then rmatch n0 (RStar greedy r) s' c' k
                   else None) in
    if greedy then orElse again (k s caps) else orElse (k s caps) again.
Proof.
  cbn zeta. destruct s as [|c s].
  - rewrite (rmatch_None n0 r [] caps); [by destruct greedy; rewrite ?orElse_None_r|].
    intros s' c' _. by destruct (Nat.ltb_spec (length s') (length (@nil Z)));
      [simpl in *; lia|].
  - change (rmatch n0 (RStar greedy r) (c :: s) caps k)
      with (let again := rmatch n0 r (c :: s) caps (fun s' c' =>
                           if (length s' <? length (c :: s))%nat
                           then starLoop (rmatch n0 r) greedy k (length s) s' c'
                           else None) in
            if greedy then orElse again (k (c :: s) caps)
            else orElse (k (c :: s) caps) again).
    cbn zeta.
    rewrite (rmatch_cont_ext n0 r (c :: s) caps _
               (fun s' c' => if (length s' <? length (c :: s))%nat
                             then rmatch n0 (RStar greedy r) s' c' k
                             else None)); [done|].
    intros s' c' Hs. destruct (Nat.ltb_spec (length s') (length (c :: s))); [|done].
    simpl in *. apply (starLoop_fuel n0 r greedy k (length s)); lia.
Qed.

(** A pattern without anchors that matches at the front of [s] matches at
    the front of [s ++ ext], when the continuation allows it. *)
Lemma rmatch_ext n0 n0' r : anchorFree r = true ->
  forall s caps caps' k k' ext,
    (forall s' c c', is_Some (k s' c) -> is_Some (k' (s' ++ ext) c')) ->
    is_Some (rmatch n0 r s caps k) ->
    is_Some (rmatch n0' r (s ++ ext) caps' k').
Proof.
  induction r as [|cs|r1 IH1 r2 IH2|r1 IH1 r2 IH2|greedy r1 IH1|n r1 IH1| |m];
    cbn [anchorFree]; intros Haf s caps caps' k k' ext Hk; cbn [rmatch];
    try discriminate.
  - apply Hk.
  - destruct s as [|c s]; [intros [? [=]]|]. cbn [app].
    destruct (cset_mem cs c); [apply Hk|intros [? [=]]].
  - apply andb_prop in Haf as [Ha1 Ha2].
    apply (IH1 Ha1). intros s' c c'. apply (IH2 Ha2). exact Hk.
  - apply andb_prop in Haf as [Ha1 Ha2].
    rewrite !orElse_is_Some. intros [Hm|Hm]; [left|right].
    + by apply (IH1 Ha1 s caps caps' k k' ext Hk).
    + by apply (IH2 Ha2 s caps caps' k k' ext Hk).
  - assert (Hleave : forall fuel' s caps caps',
               is_Some (k s caps) ->
               is_Some (starLoop (rmatch n0' r1) greedy k' fuel' (s ++ ext) caps')).
    { intros [|fuel'] s0 c0 c0' H0; cbn [starLoop]; [by eapply Hk|].
      apply starStep_is_Some. right. by eapply Hk. }
    assert (Hloop : forall fuel fuel' s caps caps',
               (length s <= fuel)%nat -> (length (s ++ ext) <= fuel')%nat ->
               is_Some (starLoop (rmatch n0 r1) greedy k fuel s caps) ->
               is_Some (starLoop (rmatch n0' r1) greedy k' fuel' (s ++ ext) caps')).
    { induction fuel as [|fuel IHf]; intros fuel' s0 c0 c0' Hf Hf';
        cbn [starLoop].
      - intros Hm. by eapply Hleave.
      - rewrite starStep_is_Some. intros [Hm|Hm]; [|by eapply Hleave].
        destruct fuel' as [|fuel'].
        + exfalso. destruct s0; [|simpl in Hf'; lia].
          destruct Hm as [x Hm]. apply rmatch_inv in Hm as (s1 & c1 & _ & Hm).
          destruct (Nat.ltb_spec (length s1) (length (@nil Z)));
            [simpl in *; lia|done].
        + cbn [starLoop]. apply starStep_is_Some. left.
          revert Hm. apply (IH1 Haf). intros s1 c1 c1'.
          destruct (Nat.ltb_spec (length s1) (length s0)); [|intros [? [=]]].
          intros Hm. rewrite length_app in Hf'.
          destruct (Nat.ltb_spec (length (s1 ++ ext)) (length (s0 ++ ext)));
            [|rewrite !length_app in *; lia].
          apply (IHf fuel' s1 c1 c1'); [lia|rewrite length_app; lia|done]. }
    apply Hloop; done.
  - apply (IH1 Haf). intros s' c c'. apply Hk.
Qed.

(** A greedy [[\s\S]*] hands the continuation the suffixes of the string,
    the shortest first. *)
Lemma starLoop_any n0 k : forall fuel s caps,
  (length s <= fuel)%nat ->
  starLoop (rmatch n0 (RChar CAny)) true k fuel s caps = lastSuffix k s caps.
Proof.
  induction fuel as [|fuel IH]; intros [|c s] caps Hf; simpl in Hf;
    try lia; cbn [starLoop rmatch lastSuffix cset_mem]; [done..|].
  destruct (Nat.ltb_spec (length s) (length (c :: s))); [|simpl in *; lia].
  rewrite IH by lia. done.
Qed.

Lemma rmatch_star_any n0 k s caps :
  rmatch n0 (RStar true (RChar CAny)) s caps k = lastSuffix k s caps.
Proof. exact (starLoop_any n0 k (length s) s caps (le_n _)). Qed.

Lemma lastSuffix_None k s caps :
  lastSuffix k s caps = None ->
  forall s', s' `suffix_of` s -> k s' caps = None.
Proof.
  induction s as [|c s IH]; cbn [lastSuffix]; intros Hn s' Hs.
  - apply suffix_nil_inv in Hs as ->. done.
  - destruct (lastSuffix k s caps) eqn:E; [done|]. simpl in Hn.
    apply suffix_cons_case in Hs as [->|Hs]; [done|by apply IH].
Qed.

Lemma lastSuffix_Some k s caps x :
  lastSuffix k s caps = Some x ->
  exists s1, s1 `suffix_of` s /\ k s1 caps = Some x /\
             forall s2, s2 `suffix_of` s1 -> s2 <> s1 -> k s2 caps = None.
Proof.
  induction s as [|c s IH]; cbn [lastSuffix]; intros Hx.
  - exists []. split; [done|]. split; [done|].
    intros s2 Hs2 Hne. apply suffix_nil_inv in Hs2. done.
  - destruct (lastSuffix k s caps) as [y|] eqn:E; simpl in Hx.
    + destruct (IH Hx) as (s1 & Hs1 & Hk & Hmin).
      exists s1. split; [by apply suffix_cons_r|done].
    + exists (c :: s). split; [done|]. split; [done|].
      intros s2 Hs2 Hne. apply suffix_cons_case in Hs2 as [->|Hs2]; [done|].
      by eapply lastSuffix_None.
Qed.

(** A literal matches exactly when it is at the front. *)
Lemma rmatch_RLit n0 k l : forall s caps,
  rmatch n0 (RLit l) s caps k =
    if startsWith l s then k (drop (length l) s) caps else None.
Proof.
  induction l as [|a l IH]; intros s caps; cbn [RLit rmatch startsWith].
  - done.
  - destruct s as [|b s]; [done|]. cbn [cset_mem length drop].
    destruct (b =? a); [apply IH|done].
Qed.

Lemma startsWith_app l post : startsWith l (l ++ post) = true.
Proof.
  induction l as [|a l IH]; [done|]. cbn [app startsWith].
  by rewrite Z.eqb_refl.
Qed.

Lemma startsWith_inv l : forall s,
  startsWith l s = true -> s = l ++ drop (length l) s.
Proof.
  induction l as [|a l IH]; intros [|b s]; cbn [startsWith]; try done.
  intros Hs. apply andb_prop in Hs as [Hb Hs]. apply Z.eqb_eq in Hb as ->.
  cbn [app length drop]. f_equal. by apply IH.
Qed.

Lemma line_split s : s = lineHead s ++ lineRest s.
Proof.
  induction s as [|c s IH]; [done|]. cbn [lineHead lineRest].
  destruct (isLineTerminator c); [done|]. cbn [app]. by f_equal.
Qed.

Lemma take_lineHead s : take (length s - length (lineRest s)) s = lineHead s.
Proof.
  assert (Hl : length s = (length (lineHead s) + length (lineRest s))%nat)
    by (rewrite <- length_app, <- line_split; done).
  replace (length s - length (lineRest s))%nat with (length (lineHead s)) by lia.
  transitivity (take (length (lineHead s)) (lineHead s ++ lineRest s)).
  - f_equal. apply line_split.
  - apply take_app_length.
Qed.

Lemma lineRest_suffix s : lineRest s `suffix_of` s.
Proof. exists (lineHead s). apply line_split. Qed.

Lemma lineHead_app v rest :
  Forall (fun c => isLineTerminator c = false) v ->
  (rest = [] \/ exists c rest', rest = c :: rest' /\ isLineTerminator c = true) ->
  lineHead (v ++ rest) = v /\ lineRest (v ++ rest) = rest.
Proof.
  intros Hv Hrest. induction Hv as [|c v Hc _ IH]; cbn [app lineHead lineRest].
  - destruct Hrest as [->|(c & rest' & -> & Hc)]; [done|].
    cbn [lineHead lineRest]. by rewrite Hc.
  - rewrite Hc. destruct IH as [-> ->]. done.
Qed.

(** A lazy [(.*?)] before a multiline [$] captures up to the end of the
    line. *)
Lemma starLoop_line n0 k (g : list Z -> captures -> captures) :
  forall fuel s caps,
  (length s <= fuel)%nat ->
  starLoop (rmatch n0 (RChar CDot)) false
           (fun s' caps' => rmatch n0 (REol true) s' (g s' caps') k) fuel s caps
  = k (lineRest s) (g (lineRest s) caps).
Proof.
  induction fuel as [|fuel IH]; intros [|c s] caps Hf; simpl in Hf; try lia;
    cbn [starLoop rmatch lineRest cset_mem]; [done|by rewrite orElse_None_r|].
  destruct (isLineTerminator c); cbn [andb negb orElse].
  - by rewrite orElse_None_r.
  - destruct (Nat.ltb_spec (length s) (length (c :: s))); [|simpl in *; lia].
    apply IH. lia.
Qed.

Lemma rmatch_line n0 k s caps :
  rmatch n0 (RSeq (RGroup 1 (RStar false (RChar CDot))) (REol true)) s caps k
  = k (lineRest s) ((1%nat, lineHead s) :: caps).
Proof.
  cbn [rmatch].
  rewrite (starLoop_line n0 k
             (fun s' caps' => (1%nat, take (length s - length s') s) :: caps'))
    by done.
  do 3 f_equal. apply take_lineHead.
Qed.

(** A pattern that consumes hands the continuation a shorter string. *)
Lemma rmatch_progress n0 r : consumes r = true ->
  forall s caps k x,
    rmatch n0 r s caps k = Some x ->
    exists s' caps', s' `suffix_of` s /\ (length s' < length s)%nat /\
                     k s' caps' = Some x.
Proof.
  induction r as [|cs|r1 IH1 r2 IH2|r1 IH1 r2 IH2|greedy r1 IH1|n r1 IH1| |m];
    cbn [consumes]; intros Hc s caps k x; cbn [rmatch]; try discriminate.
  - destruct s as [|c s]; [done|]. destruct (cset_mem cs c); [|done].
    intros Hk. exists s, caps. split; [by apply suffix_cons_r|]. simpl. auto.
  - destruct (consumes r1) eqn:E1.
    + intros H1. apply (IH1 eq_refl) in H1 as (s1 & c1 & Hs1 & Hl1 & H2).
      apply rmatch_inv in H2 as (s2 & c2 & Hs2 & Hk).
      exists s2, c2. split; [by etrans|]. apply suffix_length in Hs2.
      split; [lia|done].
    + simpl in Hc. intros H1. apply rmatch_inv in H1 as (s1 & c1 & Hs1 & H2).
      apply (IH2 Hc) in H2 as (s2 & c2 & Hs2 & Hl2 & Hk).
      exists s2, c2. split; [by etrans|]. apply suffix_length in Hs1.
      split; [lia|done].
  - apply andb_prop in Hc as [Hc1 Hc2].
    intros Hx. apply orElse_Some in Hx as [Hx|Hx]; eauto.
  - intros Hx. apply (IH1 Hc) in Hx as (s1 & c1 & Hs1 & Hl1 & Hk). eauto.
Qed.

(** A pattern that requires [c] fails on a string without [c]. *)
Lemma rmatch_requires n0 c r : requires c r = true ->
  forall s caps k, c ∉ s -> rmatch n0 r s caps k = None.
Proof.
  induction r as [|cs|r1 IH1 r2 IH2|r1 IH1 r2 IH2|greedy r1 IH1|n r1 IH1| |m];
    cbn [requires]; intros Hc s caps k Hs; cbn [rmatch]; try discriminate.
  - destruct cs as [| | |x|x]; try discriminate. apply Z.eqb_eq in Hc as ->.
    destruct s as [|c' s]; [done|]. cbn [cset_mem].
    destruct (Z.eqb_spec c' c) as [->|]; [|done].
    exfalso. apply Hs. left.
  - destruct (requires c r1) eqn:E1; [by apply IH1|]. simpl in Hc.
    apply rmatch_None. intros s' c' [pre ->]. apply (IH2 Hc).
    intros Hin. apply Hs. apply elem_of_app. by right.
  - apply andb_prop in Hc as [Hc1 Hc2].
    by rewrite (IH1 Hc1), (IH2 Hc2).
  - by apply IH1.
Qed.

(** Whether a pattern without anchors matches at the front of a string
    depends neither on the position, nor on the captures, nor on a
    continuation that cannot fail. *)
Lemma rmatch_is_Some_any n0 n0' r s caps caps' k k' :
  anchorFree r = true ->
  (forall s' c c', is_Some (k s' c) -> is_Some (k' s' c')) ->
  is_Some (rmatch n0 r s caps k) -> is_Some (rmatch n0' r s caps' k').
Proof.
  intros Haf Hk Hm. rewrite <- (app_nil_r s).
  eapply rmatch_ext; [done| |exact Hm].
  intros s' c c' Hs. rewrite app_nil_r. by eapply Hk.
Qed.
End MatcherProperties.

(** ** Searching for the leftmost match *)

Lemma execFrom_hit n0 r s i rest caps :
  matchAt n0 r s = Some (rest, caps) -> execFrom n0 r i s = Some (i, rest, caps).
Proof. intros Hm. destruct s; cbn [execFrom]; by rewrite Hm. Qed.

Lemma execFrom_None n0 r : forall s i,
  (forall s', s' `suffix_of` s -> matchAt n0 r s' = None) ->
  execFrom n0 r i s = None.
Proof.
  induction s as [|c s IH]; intros i Hn; cbn [execFrom];
    rewrite Hn by done; [done|].
  apply IH. intros s' Hs. apply Hn. by apply suffix_cons_r.
Qed.

Lemma execFrom_skip n0 r s : forall pre i,
  (forall s', s' `suffix_of` (pre ++ s) -> (length s < length s')%nat ->
              matchAt n0 r s' = None) ->
  execFrom n0 r i (pre ++ s) = execFrom n0 r (i + length pre) s.
Proof.
  induction pre as [|c pre IH]; intros i Hn.
  - simpl. by rewrite Nat.add_0_r.
  - cbn [app execFrom]. rewrite (Hn (c :: pre ++ s)); [|done|simpl; rewrite length_app; lia].
    rewrite IH.
    + f_equal. simpl. lia.
    + intros s' Hs Hl. apply Hn; [by apply suffix_cons_r|done].
Qed.

Lemma execFrom_inv n0 r : forall s i j rest caps,
  execFrom n0 r i s = Some (j, rest, caps) ->
  exists pre s1, s = pre ++ s1 /\ j = (i + length pre)%nat /\
    matchAt n0 r s1 = Some (rest, caps) /\
    forall s', s' `suffix_of` s -> (length s1 < length s')%nat ->
               matchAt n0 r s' = None.
Proof.
  induction s as [|c s IH]; intros i j rest caps; cbn [execFrom].
  - destruct (matchAt n0 r []) as [[rest' caps']|] eqn:E; [|done].
    intros [= <- <- <-]. exists [], []. split; [done|]. split; [simpl; lia|].
    split; [done|]. intros s' Hs Hl. apply suffix_nil_inv in Hs as ->.
    simpl in Hl. lia.
  - destruct (matchAt n0 r (c :: s)) as [[rest' caps']|] eqn:E.
    + intros [= <- <- <-]. exists [], (c :: s). split; [done|].
      split; [simpl; lia|]. split; [done|]. intros s' Hs Hl.
      apply suffix_length in Hs. lia.
    + intros Hx. apply IH in Hx as (pre & s1 & -> & -> & Hm & Hmin).
      exists (c :: pre), s1. split; [done|]. split; [simpl; lia|].
      split; [done|]. intros s' Hs Hl.
      apply suffix_cons_case in Hs as [->|Hs]; [done|by apply Hmin].
Qed.

Lemma execFrom_None_inv n0 r : forall s i,
  execFrom n0 r i s = None ->
  forall s', s' `suffix_of` s -> matchAt n0 r s' = None.
Proof.
  induction s as [|c s IH]; intros i; cbn [execFrom].
  - destruct (matchAt n0 r []) as [[rest' caps']|] eqn:E; [done|].
    intros _ s' Hs. apply suffix_nil_inv in Hs as ->. done.
  - destruct (matchAt n0 r (c :: s)) as [[rest' caps']|] eqn:E; [done|].
    intros Hx s' Hs. apply suffix_cons_case in Hs as [->|Hs]; [done|].
    by eapply IH.
Qed.

(** ** Index derivation *)

Lemma fold_left_add_shift (l : list Z) (a : Z) :
  fold_left (fun nextIndex char => nextIndex + charCodeAt0 char)
            (splitChars l) a = a + codeSum l.
Proof.
  revert a. induction l as [|c l IH]; intros a; simpl.
  - lia.
  - rewrite IH. lia.
Qed.

Lemma getNextIndex_codeSum (text : list Z) : getNextIndex text = codeSum text.
Proof. unfold getNextIndex. rewrite fold_left_add_shift. lia. Qed.

Lemma codeSum_bound (text : list Z) :
  wfString text -> 0 <= codeSum text <= 65535 * Z.of_nat (length text).
Proof.
  induction 1 as [|c text Hc _ IH]; simpl length; simpl codeSum; lia.
Qed.

(** The sum stays within the exact integers of a double on a string of
    fewer than 2^37 code units. *)
Lemma getNextIndex_bound (text : list Z) :
  wfString text -> Z.of_nat (length text) < 2 ^ 37 ->
  0 <= getNextIndex text < 2 ^ 53.
Proof.
  intros Hwf Hlen. rewrite getNextIndex_codeSum.
  pose proof (codeSum_bound text Hwf). lia.
Qed.

Lemma codePoints_without_pair (text : list Z) :
  hasSurrogatePair text = false -> codePoints text = text.
Proof.
  induction text as [|a rest IH]; [done|].
  destruct rest as [|b rest']; [done|].
  intros Hp.
  change (hasSurrogatePair (a :: b :: rest'))
    with ((isHighSurrogate a && isLowSurrogate b)
          || hasSurrogatePair (b :: rest')) in Hp.
  change (codePoints (a :: b :: rest'))
    with (if isHighSurrogate a && isLowSurrogate b
          then (65536 + (a - 55296) * 1024 + (b - 56320)) :: codePoints rest'
          else a :: codePoints (b :: rest')).
  destruct (isHighSurrogate a && isLowSurrogate b); [done|].
  by rewrite (IH Hp).
Qed.

(** C1 (amended): for every string, [getNextIndex] returns the sum of the
    UTF-16 code units of the string, taken in order from a zero start; that
    sum is the sum of the code points of the characters for every string
    without a surrogate pair; and equal inputs give equal outputs. *)
Theorem getNextIndex_is_code_unit_sum :
  (forall text : list Z, getNextIndex text = codeSum text) /\
  (forall text : list Z,
      hasSurrogatePair text = false -> getNextIndex text = codePointSum text) /\
  (forall a b : list Z, a = b -> getNextIndex a = getNextIndex b).
Proof.
  split; [|split].
  - exact getNextIndex_codeSum.
  - intros text Hp. unfold codePointSum.
    rewrite (codePoints_without_pair text Hp). apply getNextIndex_codeSum.
  - intros a b ->. reflexivity.
Qed.

Lemma getNextIndex_is_code_unit_sum_witness :
  getNextIndex (js "ab") = 195 /\
  hasSurrogatePair (js "ab") = false /\
  getNextIndex (js "ab") = codePointSum (js "ab") /\
  getNextIndex [233; 55357] = codePointSum [233; 55357] /\
  getNextIndex (js "ab") = getNextIndex (97 :: js "b").
Proof.
  destruct getNextIndex_is_code_unit_sum as (Hunits & Hpoints & Hsame).
  split; [|split; [|split; [|split]]].
  - rewrite Hunits. reflexivity.
  - reflexivity.
  - apply Hpoints. reflexivity.
  - apply Hpoints. reflexivity.
  - apply Hsame. reflexivity.
Defined.

(** C1 as the specification words it fails on a character outside the basic
    plane: U+1F600 is the two code units D83D DE00, which [split('')] hands
    over one by one, so the function returns 55357 + 56832 = 112189 where
    the code point is 128512. *)
Lemma getNextIndex_not_code_point_sum :
  getNextIndex [55357; 56832] = 112189 /\
  codePointSum [55357; 56832] = 128512 /\
  getNextIndex [55357; 56832] <> codePointSum [55357; 56832].
Proof. split; [reflexivity|split; [reflexivity|discriminate]]. Qed.

(** ** Rate limit *)

(** C8: with headers present, [getRateTimeout] returns 0 when the remaining
    quota is 1 or more and [reset * 1000 - now] when it is below 1; it throws
    exactly when the headers are absent, and what it throws is the rate limit
    error. *)
Theorem getRateTimeout_cases (now : Z) (headers : option Headers) :
  (forall h, headers = Some h -> 1 <= x_ratelimit_remaining h ->
     snd (getRateTimeout now headers) = Ret 0) /\
  (forall h, headers = Some h -> x_ratelimit_remaining h < 1 ->
     snd (getRateTimeout now headers) = Ret (x_ratelimit_reset h * 1000 - now)) /\
  (headers = None <-> snd (getRateTimeout now headers) = Thrown RateLimitError) /\
  (forall e, snd (getRateTimeout now headers) = Thrown e -> headers = None).
Proof.
  unfold getRateTimeout. repeat split.
  - intros h -> Hq. destruct (Z.ltb_spec (x_ratelimit_remaining h) 1); [lia|reflexivity].
  - intros h -> Hq. destruct (Z.ltb_spec (x_ratelimit_remaining h) 1); [reflexivity|lia].
  - intros ->. reflexivity.
  - destruct headers as [h|]; [|reflexivity].
    destruct (x_ratelimit_remaining h <? 1); discriminate.
  - intros e. destruct headers as [h|]; [|reflexivity].
    destruct (x_ratelimit_remaining h <? 1); discriminate.
Qed.

Lemma getRateTimeout_cases_witness :
  snd (getRateTimeout 1699999990000 Sample.quota) = Ret 0 /\
  snd (getRateTimeout 1699999990000 Sample.spent) = Ret 10000 /\
  snd (getRateTimeout 1700000001000 Sample.spent) = Ret (-1000) /\
  snd (getRateTimeout 0 None) = Thrown RateLimitError.
Proof.
  split; [|split; [|split]].
  - apply (proj1 (getRateTimeout_cases 1699999990000 Sample.quota) _ eq_refl).
    simpl. lia.
  - apply (proj1 (proj2 (getRateTimeout_cases 1699999990000 Sample.spent)) _ eq_refl).
    simpl. lia.
  - apply (proj1 (proj2 (getRateTimeout_cases 1700000001000 Sample.spent)) _ eq_refl).
    simpl. lia.
  - apply (proj1 (proj1 (proj2 (proj2 (getRateTimeout_cases 0 None))))).
    reflexivity.
Defined.

(** ** Corpus provider: what reaches the callback and what is thrown *)

Section CorpusProperties.
Context `{Runtime}.
Variable github : GitHub.

Lemma getRateTimeout_inv now headers l r :
  getRateTimeout now headers = (l, r) ->
  (headers = None /\ l = [] /\ r = Thrown RateLimitError) \/
  (exists h t, headers = Some h /\ r = Ret t).
Proof.
  unfold getRateTimeout. destruct headers as [h|]; intros E.
  - right. destruct (x_ratelimit_remaining h <? 1);
      unfold bind, tell, ret in E; simplify_eq; eauto.
  - left. unfold throw in E. simplify_eq. auto.
Qed.





Lemma getRateTimeout_throws now :
  getRateTimeout now None = ([], Thrown RateLimitError).
Proof. reflexivity. Qed.



End CorpusProperties.

(** ** The engine *)

Section EngineProperties.
Context `{Runtime}.
Variable cfg : Config.

Lemma logged_nil st : logged st [] = st.
Proof. destruct st. unfold logged. simpl. by rewrite app_nil_r. Qed.

(** Every retry is [trySimilarParagraph] on the state, after some journal
    entries. *)
Lemma addParagraph_retried github st st' :
  addParagraph cfg github st = Retried st' ->
  1 <= count st /\ retryCondition cfg github st /\
  exists l, st' = trySimilarParagraph (logged st l).
Proof.
  unfold addParagraph, retryCondition.
  destruct (Z.ltb_spec (count st) 1); [discriminate|].
  destruct (visited (cache st) (index st)) eqn:Ev.
  { intros; simplify_eq. split; [lia|]. split; [auto|].
    exists []. by rewrite logged_nil. }
  destruct (excluded cfg _) eqn:Ex.
  { intros; simplify_eq. split; [lia|]. split; [auto|]. eauto. }
  destruct (getGutenbergBook github _) as [l [e|[err|result]]] eqn:Eg;
    intros; simplify_eq.
  split; [lia|]. split; [eauto 6|]. eauto.
Qed.

Lemma addParagraph_retries github st :
  1 <= count st -> retryCondition cfg github st ->
  exists l, addParagraph cfg github st = Retried (trySimilarParagraph (logged st l)).
Proof.
  intros Hc Hr. unfold addParagraph.
  destruct (Z.ltb_spec (count st) 1); [lia|].
  destruct (visited (cache st) (index st)) eqn:Ev.
  { exists []. by rewrite logged_nil. }
  destruct (excluded cfg _) eqn:Ex; [eauto|].
  destruct Hr as [Hr|[Hr|(l & err & Hr)]]; [congruence..|].
  rewrite Hr. eauto.
Qed.

Lemma addParagraph_appended github st st' :
  addParagraph cfg github st = Appended st' ->
  1 <= count st /\ visited (cache st) (index st) = false /\
  exists l result,
    getGutenbergBook github (clampBookId cfg (index st)) = (l, Ret (inr result)) /\
    st' = {| book := book st ++ getParagraph result (index st);
             index := getNextIndex (getParagraph result (index st));
             count := count st - 1;
             cache := <[index st := true]> (cache st);
             journal := journal st ++ l ++
                          [LogTranscribing (clampBookId cfg (index st))] |}.
Proof.
  unfold addParagraph.
  destruct (Z.ltb_spec (count st) 1); [discriminate|].
  destruct (visited (cache st) (index st)) eqn:Ev; [discriminate|].
  destruct (excluded cfg _) eqn:Ex; [discriminate|].
  destruct (getGutenbergBook github _) as [l [e|[err|result]]] eqn:Eg;
    intros; simplify_eq.
  split; [lia|]. split; [done|]. eauto.
Qed.

Lemma addParagraph_finished github st st' :
  addParagraph cfg github st = Finished st' -> st' = st /\ count st < 1.
Proof.
  unfold addParagraph.
  destruct (Z.ltb_spec (count st) 1).
  { intros; simplify_eq. auto. }
  repeat case_match; discriminate.
Qed.

Lemma addParagraph_crashed github st e st' :
  addParagraph cfg github st = Crashed e st' ->
  exists l, getGutenbergBook github (clampBookId cfg (index st)) = (l, Thrown e) /\
            st' = logged st l.
Proof.
  unfold addParagraph. repeat case_match; intros; simplify_eq; simpl; eauto 10.
Qed.

Lemma visited_insert (c : gmap Z bool) (i k : Z) :
  visited c k = true -> visited (<[i := true]> c) k = true.
Proof.
  unfold visited. rewrite !bool_decide_eq_true. intros Hk.
  destruct (decide (i = k)) as [->|Hne].
  - by rewrite lookup_insert_eq.
  - by rewrite lookup_insert_ne.
Qed.

Lemma addParagraph_cache_grows github st k :
  visited (cache st) k = true ->
  visited (cache (outcomeState (addParagraph cfg github st))) k = true.
Proof.
  intros Hk. destruct (addParagraph cfg github st) as [s|e s|s|s] eqn:E; simpl.
  - apply addParagraph_finished in E as [-> _]. done.
  - apply addParagraph_crashed in E as (l & _ & ->). done.
  - apply addParagraph_retried in E as (_ & _ & l & ->). done.
  - apply addParagraph_appended in E as (_ & _ & l & result & _ & ->). simpl.
    by apply visited_insert.
Qed.

Lemma run_cache_grows n st st' k :
  run cfg n st st' -> visited (cache st) k = true -> visited (cache st') k = true.
Proof.
  induction 1 as [st|github n st st1 st2 E _ IH|github n st st1 st2 E _ IH];
    intros Hk; [done|..]; apply IH;
    pose proof (addParagraph_cache_grows github st k Hk) as Hg;
    rewrite E in Hg; exact Hg.
Qed.

Lemma run_count n st st' :
  run cfg n st st' -> count st' = count st - Z.of_nat n.
Proof.
  induction 1 as [st|github n st st1 st2 E _ IH|github n st st1 st2 E _ IH].
  - lia.
  - apply addParagraph_retried in E as (_ & _ & l & ->). simpl in IH. lia.
  - apply addParagraph_appended in E as (_ & _ & l & result & _ & ->).
    simpl in IH. lia.
Qed.
(** C2 (amended): on the retry path (visited seed, excluded book, or an
    error from the corpus) the new seed is the retried seed plus the index
    derived from the newline that is written, that is the retried seed
    plus 10; only the increment is the same every time. *)
Theorem retry_advances_seed_by_newline github st :
  1 <= count st -> retryCondition cfg github st ->
  exists st', addParagraph cfg github st = Retried st' /\
              index st' = index st + getNextIndex extraText /\
              getNextIndex extraText = 10.
Proof.
  intros Hc Hr. destruct (addParagraph_retries github st Hc Hr) as [l E].
  eexists. split; [exact E|]. split; reflexivity.
Qed.

(** C3 (amended): on the retry path exactly one newline, the text that
    [trySimilarParagraph] writes, is appended to the book, and no
    paragraph. *)
Theorem retry_appends_one_newline github st :
  1 <= count st -> retryCondition cfg github st ->
  exists st', addParagraph cfg github st = Retried st' /\
              book st' = book st ++ [LF].
Proof.
  intros Hc Hr. destruct (addParagraph_retries github st Hc Hr) as [l E].
  eexists. split; [exact E|]. reflexivity.
Qed.

(** C4: a call of [addParagraph] that retries keeps [count]; one that
    appends a paragraph lowers it by exactly one; one that finishes or
    crashes leaves it alone; so a run that appended [n] paragraphs lowered
    it by [n]. *)
Theorem count_decreases_only_on_append :
  (forall github st st',
      addParagraph cfg github st = Retried st' -> count st' = count st) /\
  (forall github st st',
      addParagraph cfg github st = Appended st' ->
      count st' = count st - 1 /\
      exists result, book st' = book st ++ getParagraph result (index st)) /\
  (forall github st st',
      addParagraph cfg github st = Finished st' -> st' = st) /\
  (forall github st e st',
      addParagraph cfg github st = Crashed e st' ->
      count st' = count st /\ book st' = book st) /\
  (forall n st st', run cfg n st st' -> count st' = count st - Z.of_nat n).
Proof.
  split; [|split; [|split; [|split]]].
  - intros github st st' E.
    apply addParagraph_retried in E as (_ & _ & l & ->). reflexivity.
  - intros github st st' E.
    apply addParagraph_appended in E as (_ & _ & l & result & _ & ->).
    split; [reflexivity|]. exists result. reflexivity.
  - intros github st st' E.
    apply addParagraph_finished in E as [-> _]. reflexivity.
  - intros github st e st' E.
    apply addParagraph_crashed in E as (l & _ & ->). split; reflexivity.
  - apply run_count.
Qed.

(** A throw of [getGutenbergBook] reaches the caller of [addParagraph]. *)
Lemma addParagraph_crashes github st l e :
  1 <= count st -> visited (cache st) (index st) = false ->
  excluded cfg (clampBookId cfg (index st)) = false ->
  getGutenbergBook github (clampBookId cfg (index st)) = (l, Thrown e) ->
  addParagraph cfg github st = Crashed e (logged st l).
Proof.
  intros Hc Hv Hx Hg. unfold addParagraph.
  destruct (Z.ltb_spec (count st) 1); [lia|]. by rewrite Hv, Hx, Hg.
Qed.


(** C7: no call of [addParagraph] and no run removes a seed from the
    cache; a call on a visited seed retries without asking for a book; and
    a call that appends a paragraph started from a seed that was not yet
    visited and marks it. *)
Theorem visited_seeds_stay_and_retry :
  (forall github st k,
      visited (cache st) k = true ->
      visited (cache (outcomeState (addParagraph cfg github st))) k = true) /\
  (forall n st st' k,
      run cfg n st st' -> visited (cache st) k = true ->
      visited (cache st') k = true) /\
  (forall github st,
      1 <= count st -> visited (cache st) (index st) = true ->
      addParagraph cfg github st = Retried (trySimilarParagraph st)) /\
  (forall github st st',
      addParagraph cfg github st = Appended st' ->
      visited (cache st) (index st) = false /\
      visited (cache st') (index st) = true).
Proof.
  split; [|split; [|split]].
  - apply addParagraph_cache_grows.
  - apply run_cache_grows.
  - intros github st Hc Hv. unfold addParagraph.
    destruct (Z.ltb_spec (count st) 1); [lia|]. by rewrite Hv.
  - intros github st st' E.
    apply addParagraph_appended in E as (_ & Hv & l & result & _ & ->).
    split; [done|]. simpl. unfold visited.
    rewrite bool_decide_eq_true. apply lookup_insert_eq.
Qed.
End EngineProperties.

Lemma retry_advances_seed_by_newline_witness :
  exists st',
    @addParagraph Sample.runtime Sample.cfg Sample.github (Sample.state 42)
      = Retried st' /\
    index st' = index (Sample.state 42) + getNextIndex extraText /\
    getNextIndex extraText = 10.
Proof.
  apply retry_advances_seed_by_newline.
  - simpl. lia.
  - right; left. reflexivity.
Defined.

(** C2 as stated fails: seeds 42 and 142 both meet the excluded book 42, and
    the seeds they are retried with are 52 and 152, so the new seed is not one
    constant that the newline alone determines. *)
Lemma retry_seed_not_constant :
  ~ exists c : Z, forall seed st',
      @addParagraph Sample.runtime Sample.cfg Sample.github (Sample.state seed)
        = Retried st' ->
      index st' = c.
Proof.
  intros [c Hc].
  pose proof (Hc 42 _ eq_refl) as H1.
  pose proof (Hc 142 _ eq_refl) as H2.
  vm_compute in H1, H2. congruence.
Qed.

Lemma retry_appends_one_newline_witness :
  exists st',
    @addParagraph Sample.runtime Sample.cfg Sample.github (Sample.state 42)
      = Retried st' /\
    book st' = book (Sample.state 42) ++ [LF].
Proof.
  apply retry_appends_one_newline.
  - simpl. lia.
  - right; left. reflexivity.
Defined.

(** C3 as stated fails: the retry on the excluded book 42 leaves the book one
    newline longer than it was. *)
Lemma retry_changes_book :
  ~ forall seed st',
      @addParagraph Sample.runtime Sample.cfg Sample.github (Sample.state seed)
        = Retried st' ->
      book st' = book (Sample.state seed).
Proof.
  intros Hc. pose proof (Hc 42 _ eq_refl) as H1.
  vm_compute in H1. discriminate.
Qed.

Lemma count_decreases_only_on_append_witness :
  let step := @addParagraph Sample.runtime Sample.cfg in
  count (outcomeState (step Sample.github (Sample.state 42))) = 2 /\
  count (outcomeState (step Sample.github (Sample.state 52))) = 2 - 1 /\
  outcomeState (step Sample.github Sample.doneState) = Sample.doneState /\
  count (outcomeState (step Sample.throttled (Sample.state 52))) = 2 /\
  count (outcomeState (step Sample.github (Sample.state 52))) = 2 - Z.of_nat 1.
Proof.
  pose proof (@count_decreases_only_on_append Sample.runtime Sample.cfg)
    as (Hretry & Happend & Hdone & Hcrash & Hrun).
  split; [|split; [|split; [|split]]].
  - apply (Hretry Sample.github (Sample.state 42)). reflexivity.
  - apply (Happend Sample.github (Sample.state 52)). reflexivity.
  - apply (Hdone Sample.github Sample.doneState). reflexivity.
  - apply (Hcrash Sample.throttled (Sample.state 52) RateLimitError). reflexivity.
  - apply (Hrun 1%nat (Sample.state 52)).
    eapply (run_append _ Sample.github); [reflexivity|apply run_here].
Defined.


Lemma visited_seeds_stay_and_retry_witness :
  let step := @addParagraph Sample.runtime Sample.cfg in
  visited (cache (outcomeState (step Sample.github Sample.visitedState))) 52 = true /\
  visited (cache (trySimilarParagraph Sample.visitedState)) 52 = true /\
  step Sample.github Sample.visitedState
    = Retried (trySimilarParagraph Sample.visitedState) /\
  (visited (cache (Sample.state 52)) 52 = false /\
   visited (cache (outcomeState (step Sample.github (Sample.state 52)))) 52 = true).
Proof.
  pose proof (@visited_seeds_stay_and_retry Sample.runtime Sample.cfg)
    as (Hstep & Hrun & Hretry & Hmark).
  assert (Hv : visited (cache Sample.visitedState) (index Sample.visitedState) = true)
    by (vm_compute; reflexivity).
  split; [|split; [|split]].
  - apply Hstep. exact Hv.
  - apply (Hrun O Sample.visitedState); [|exact Hv].
    eapply (run_retry _ Sample.github); [|apply run_here].
    apply Hretry; [simpl; lia|exact Hv].
  - apply Hretry; [simpl; lia|exact Hv].
  - apply (Hmark Sample.github (Sample.state 52)). vm_compute. reflexivity.
Defined.

(** The other failures of one book, and the missing headers, on the sample
    library. *)
Example repo_not_found_is_retried :
  @addParagraph Sample.runtime Sample.cfg Sample.github (Sample.state 7) =
    Retried (trySimilarParagraph
               (logged (Sample.state 7) [LogError (RepoNotFoundError (Some 7))])).
Proof. vm_compute. reflexivity. Qed.

Example book_not_found_is_retried :
  @addParagraph Sample.runtime Sample.cfg
     (Sample.library "52-1.txt" Sample.bookText Sample.quota None Sample.quota)
     (Sample.state 52) =
    Retried (trySimilarParagraph
               (logged (Sample.state 52) [LogError (BookNotFoundError (Some 52))])).
Proof. vm_compute. reflexivity. Qed.

Example illegible_is_retried :
  @addParagraph Sample.runtime Sample.cfg
     (Sample.library "52-0.txt" Sample.oddText Sample.quota Sample.quota Sample.quota)
     (Sample.state 52) =
    Retried (trySimilarParagraph
               (logged (Sample.state 52) [LogError (IllegibleError (Some 52))])).
Proof. vm_compute. reflexivity. Qed.

Example missing_headers_crash :
  @addParagraph Sample.runtime Sample.cfg
     (Sample.library "52.txt" Sample.frenchText Sample.quota Sample.spent None)
     (Sample.state 52) =
    Crashed RateLimitError (logged (Sample.state 52) [LogWaiting 10000]).
Proof. vm_compute. reflexivity. Qed.

(** ** Paragraph selection *)

Lemma splitLoop_nonempty n0 r skip cur s : splitLoop n0 r skip cur s <> [].
Proof.
  revert skip cur. induction s as [|c s IH]; intros skip cur; [done|].
  cbn [splitLoop]. repeat case_match; try done; apply IH.
Qed.

Lemma split_paragraphs_nonempty (text : list Z) :
  (1 <= length (split paragraphSeparator text))%nat.
Proof.
  destruct text as [|c text].
  - simpl. lia.
  - unfold split.
    pose proof (splitLoop_nonempty (length (c :: text)) paragraphSeparator
                  O [] (c :: text)) as Hne.
    destruct (splitLoop _ _ _ _ _); [done|simpl; lia].
Qed.

(** A loop that may always be left succeeds. *)
Lemma starLoop_total {R} iter greedy (k : list Z -> captures -> option R)
      fuel s caps :
  (forall s' c', is_Some (k s' c')) ->
  is_Some (starLoop iter greedy k fuel s caps).
Proof.
  intros Hk. destruct fuel as [|fuel]; cbn [starLoop]; [apply Hk|].
  apply starStep_is_Some. right. apply Hk.
Qed.

(** A greedy [\n*] takes all the newlines at the front. *)
Lemma starLoop_newlines n0 : forall fuel s caps rest caps',
  (length s <= fuel)%nat ->
  starLoop (rmatch n0 (RChar (CChr LF))) true matched fuel s caps
    = Some (rest, caps') ->
  exists m, s = replicate m LF ++ rest /\ head rest <> Some LF.
Proof.
  induction fuel as [|fuel IH]; intros s caps rest caps' Hf.
  - destruct s; [|simpl in Hf; lia]. intros [= <- <-]. by exists O.
  - cbn [starLoop]. destruct s as [|c t].
    + rewrite rmatch_RChar_nil. intros [= <- <-]. by exists O.
    + rewrite rmatch_RChar_cons. cbn [cset_mem].
      destruct (Z.eqb_spec c LF) as [->|Hne].
      * destruct (Nat.ltb_spec (length t) (length (LF :: t))); [|simpl in *; lia].
        destruct (starLoop _ true matched fuel t caps) as [[rest1 caps1]|] eqn:E.
        -- intros [= <- <-]. apply IH in E as (m & -> & Hh); [|simpl in Hf; lia].
           by exists (S m).
        -- pose proof (starLoop_total (rmatch n0 (RChar (CChr LF))) true
                         matched fuel t caps) as Ht.
           rewrite E in Ht. destruct Ht; [by eexists|done].
      * intros [= <- <-]. exists O. split; [done|]. simpl. congruence.
Qed.

Lemma separator_matchAt_inv n0 s rest caps :
  matchAt n0 paragraphSeparator s = Some (rest, caps) ->
  exists m, s = replicate (S (S m)) LF ++ rest /\ head rest <> Some LF.
Proof.
  unfold matchAt.
  change (rmatch n0 paragraphSeparator s [] matched)
    with (rmatch n0 (RChar (CChr LF)) s [] (fun s1 c1 =>
            rmatch n0 (RChar (CChr LF)) s1 c1 (fun s2 c2 =>
              starLoop (rmatch n0 (RChar (CChr LF))) true matched
                       (length s2) s2 c2))).
  destruct s as [|a [|b t]];
    rewrite ?rmatch_RChar_cons, ?rmatch_RChar_nil; cbn [cset_mem]; try done.
  - by destruct (a =? LF).
  - destruct (Z.eqb_spec a LF) as [->|]; [|done].
    rewrite ?rmatch_RChar_cons. cbn [cset_mem].
    destruct (Z.eqb_spec b LF) as [->|]; [|done].
    intros E. apply starLoop_newlines in E as (m & -> & Hh); [|done].
    by exists m.
Qed.

Lemma separator_matchAt_newlines n0 t :
  is_Some (matchAt n0 paragraphSeparator (LF :: LF :: t)).
Proof.
  unfold matchAt.
  change (is_Some (starLoop (rmatch n0 (RChar (CChr LF))) true matched
                            (length t) t [])).
  apply starLoop_total. intros s' c'. by eexists.
Qed.

Lemma splitLoop_skip n0 r cur x rest : forall m,
  splitLoop n0 r m cur (replicate m x ++ rest) = splitLoop n0 r O cur rest.
Proof.
  induction m as [|m IH]; [done|]. cbn [replicate app splitLoop]. apply IH.
Qed.

Lemma no_separator_snoc cur c :
  ~ occurs [LF; LF] (rev cur) -> (head cur = Some LF -> c <> LF) ->
  ~ occurs [LF; LF] (rev cur ++ [c]).
Proof.
  intros Hn Hj (pre & post & E).
  destruct post as [|x post _] using rev_ind.
  - change (pre ++ [LF; LF] ++ []) with (pre ++ [LF] ++ [LF]) in E.
    rewrite app_assoc in E. apply app_inj_tail in E as [E ->].
    apply Hj; [|done]. apply (f_equal (@rev Z)) in E.
    rewrite rev_involutive, rev_app_distr in E. by rewrite E.
  - rewrite !app_assoc in E. apply app_inj_tail in E as [E _].
    apply Hn. exists pre, post. by rewrite !app_assoc.
Qed.

(** The pieces that the split on blank lines yields contain no blank
    line. *)
Lemma splitLoop_no_separator n0 : forall n s cur,
  (length s <= n)%nat ->
  ~ occurs [LF; LF] (rev cur) -> (head cur = Some LF -> head s <> Some LF) ->
  Forall (fun p => ~ occurs [LF; LF] p) (splitLoop n0 paragraphSeparator O cur s).
Proof.
  induction n as [|n IH]; intros s cur Hn Hcur Hj.
  - destruct s; [|simpl in Hn; lia]. by apply Forall_singleton.
  - destruct s as [|c s]; [by apply Forall_singleton|]. cbn [splitLoop].
    destruct (matchAt n0 paragraphSeparator (c :: s)) as [[rest caps]|] eqn:E.
    + apply separator_matchAt_inv in E as (m & E & Hh).
      change (replicate (S (S m)) LF ++ rest)
        with (LF :: (replicate (S m) LF ++ rest)) in E.
      injection E as -> ->.
      replace (length (LF :: LF :: replicate m LF ++ rest) - length rest)%nat
        with (S (S m))
        by (cbn [length]; rewrite length_app, length_replicate; lia).
      change (LF :: replicate m LF ++ rest) with (replicate (S m) LF ++ rest).
      rewrite splitLoop_skip.
      apply Forall_cons. split; [done|]. apply IH.
      * cbn [length] in Hn. rewrite length_app in Hn. lia.
      * intros (pre & post & E). by destruct pre.
      * done.
    + apply IH.
      * simpl in Hn. lia.
      * cbn [rev]. apply no_separator_snoc; [done|].
        intros Hh ->. by apply Hj.
      * cbn [head]. intros [= ->]. destruct s as [|b s]; [done|].
        cbn [head]. intros [= ->].
        pose proof (separator_matchAt_newlines n0 s) as Hm.
        rewrite E in Hm. by destruct Hm.
Qed.

Lemma split_no_separator (text : list Z) :
  Forall (fun p => ~ occurs [LF; LF] p) (split paragraphSeparator text).
Proof.
  destruct text as [|c text].
  - apply Forall_singleton. intros (pre & post & E). by destruct pre.
  - apply (splitLoop_no_separator _ (length (c :: text))); [done| |done].
    intros (pre & post & E). by destruct pre.
Qed.

(** C10: for every text the split on blank lines has at least one element,
    so for a seed that is not negative the remainder by the number of
    paragraphs is a number, it is the index of a paragraph, and
    [getParagraph] returns that paragraph, which contains no blank line,
    followed by two newlines. *)
Theorem getParagraph_total (text : list Z) (seed : Z) :
  0 <= seed ->
  let paragraphs := split paragraphSeparator text in
  (1 <= length paragraphs)%nat /\
  exists i p,
    jsRem seed (Z.of_nat (length paragraphs)) = Some i /\
    i = seed mod Z.of_nat (length paragraphs) /\
    0 <= i < Z.of_nat (length paragraphs) /\
    paragraphs !! Z.to_nat i = Some p /\
    ~ occurs [LF; LF] p /\
    getParagraph text seed = p ++ [LF; LF].
Proof.
  intros Hseed paragraphs.
  pose proof (split_paragraphs_nonempty text) as Hlen. fold paragraphs in Hlen.
  split; [exact Hlen|].
  set (n := Z.of_nat (length paragraphs)).
  assert (Hn : 0 < n) by (unfold n; lia).
  assert (Hi : 0 <= Z.rem seed n < n) by (apply Z.rem_bound_pos; lia).
  destruct (lookup_lt_is_Some_2 paragraphs (Z.to_nat (Z.rem seed n))) as [p Hp].
  { unfold n in *. lia. }
  exists (Z.rem seed n), p.
  assert (Hrem : jsRem seed n = Some (Z.rem seed n)).
  { unfold jsRem. destruct (Z.eqb_spec n 0); [lia|reflexivity]. }
  split; [exact Hrem|]. split; [apply Z.rem_mod_nonneg; lia|].
  split; [exact Hi|]. split; [exact Hp|].
  split; [exact (Forall_lookup_1 _ _ _ _ (split_no_separator text) Hp)|].
  unfold getParagraph. fold paragraphs. fold n. rewrite Hrem.
  unfold elementText. destruct (Z.ltb_spec (Z.rem seed n) 0); [lia|].
  rewrite Hp. reflexivity.
Qed.

Lemma getParagraph_total_witness :
  let paragraphs := split paragraphSeparator Sample.bookText in
  (1 <= length paragraphs)%nat /\
  exists i p,
    jsRem 52 (Z.of_nat (length paragraphs)) = Some i /\
    i = 52 mod Z.of_nat (length paragraphs) /\
    0 <= i < Z.of_nat (length paragraphs) /\
    paragraphs !! Z.to_nat i = Some p /\
    ~ occurs [LF; LF] p /\
    getParagraph Sample.bookText 52 = p ++ [LF; LF].
Proof. apply getParagraph_total. lia. Defined.

(** The empty text and a text without blank lines are one paragraph. *)
Example getParagraph_empty : getParagraph [] 7 = [LF; LF].
Proof. reflexivity. Qed.

Example getParagraph_single :
  getParagraph (js "one line") 7 = js "one line" ++ [LF; LF].
Proof. vm_compute. reflexivity. Qed.

(** ** Replacing *)

Lemma matchesFront_ext r s ext :
  anchorFree r = true -> matchesFront r s -> matchesFront r (s ++ ext).
Proof.
  intros Haf. unfold matchesFront, matchAt. apply rmatch_ext; [done|].
  intros s' c c' _. by eexists.
Qed.

Lemma matchesFront_intro n0 r s caps (k : list Z -> captures -> option (list Z * captures)) :
  anchorFree r = true -> is_Some (rmatch n0 r s caps k) -> matchesFront r s.
Proof.
  intros Haf. unfold matchesFront, matchAt. apply rmatch_is_Some_any; [done|].
  intros s' c c' _. by eexists.
Qed.

Lemma matchesFront_elim n0 r s caps (k : list Z -> captures -> option (list Z * captures)) :
  anchorFree r = true -> (forall s' c', is_Some (k s' c')) ->
  matchesFront r s -> is_Some (rmatch n0 r s caps k).
Proof.
  intros Haf Hk. unfold matchesFront, matchAt.
  apply rmatch_is_Some_any; [done|]. intros s' c c' _. apply Hk.
Qed.

Lemma frontFree_infix r pre text post :
  anchorFree r = true -> frontFree r (pre ++ text ++ post) -> frontFree r text.
Proof.
  intros Haf Hfree s [p ->] Hm.
  apply (Hfree (s ++ post)).
  - exists (pre ++ p). by rewrite <- !app_assoc.
  - by apply matchesFront_ext.
Qed.

Lemma matchesNowhere_frontFree r : forall s,
  matchesNowhere r s = true -> frontFree r s.
Proof.
  induction s as [|c s IH]; cbn [matchesNowhere];
    destruct (matchAt O r _) eqn:E; try done.
  - intros _ s' Hs [x Hx]. apply suffix_nil_inv in Hs as ->.
    unfold matchesFront in *. congruence.
  - intros Hrest s' Hs [x Hx].
    apply suffix_cons_case in Hs as [->|Hs]; [congruence|].
    apply (IH Hrest s' Hs). by exists x.
Qed.

(** A [replace] with the g flag leaves a text without match as it is. *)
Lemma replaceAllFrom_id n0 r repl : forall s,
  (forall s', s' `suffix_of` s -> matchAt n0 r s' = None) ->
  replaceAllFrom n0 r repl O s = s.
Proof.
  induction s as [|c s IH]; intros Hn; cbn [replaceAllFrom];
    rewrite Hn by done; [done|].
  f_equal. apply IH. intros s' Hs. apply Hn. by apply suffix_cons_r.
Qed.

Lemma replaceAll_requires c r repl text :
  requires c r = true -> c ∉ text -> replaceAll r repl text = text.
Proof.
  intros Hr Hc. apply replaceAllFrom_id. intros s' [pre ->].
  apply rmatch_requires with (c := c); [done|].
  intros Hin. apply Hc. apply elem_of_app. by right.
Qed.

Lemma replaceFirst_requires c r repl text :
  requires c r = true -> c ∉ text -> replaceFirst r repl text = text.
Proof.
  intros Hr Hc. unfold replaceFirst, exec. rewrite execFrom_None; [done|].
  intros s' [pre ->]. apply rmatch_requires with (c := c); [done|].
  intros Hin. apply Hc. apply elem_of_app. by right.
Qed.

Lemma plainText_not_elem text :
  plainText text -> (underscore ∉ text) /\ (plus ∉ text) /\ (CR ∉ text).
Proof.
  unfold plainText. rewrite Forall_forall. intros Hp.
  repeat split; intros Hin; apply Hp in Hin; tauto.
Qed.

Lemma fixText_plain text : plainText text -> fixText text = text.
Proof.
  intros Hp. apply plainText_not_elem in Hp as (Hu & Hpl & Hcr).
  unfold fixText.
  rewrite (replaceAll_requires underscore (RChar (CChr underscore)));
    [|reflexivity|done].
  rewrite (replaceAll_requires plus (RChar (CChr plus))); [|reflexivity|done].
  rewrite (replaceAll_requires CR); [done|reflexivity|done].
Qed.

(** A way to check [plainText] on a given text by evaluation. *)
Lemma plainText_check text :
  forallb (fun c => negb (c =? underscore) && negb (c =? plus) && negb (c =? CR))
          text = true ->
  plainText text.
Proof.
  rewrite forallb_forall. intros Hall. apply List.Forall_forall. intros c Hc.
  apply Hall in Hc.
  destruct (Z.eqb_spec c underscore), (Z.eqb_spec c plus), (Z.eqb_spec c CR);
    done.
Qed.

Lemma plainText_infix pre text post :
  plainText (pre ++ text ++ post) -> plainText text.
Proof.
  unfold plainText. rewrite !Forall_app. tauto.
Qed.

(** ** Trimming *)

Lemma trimStart_suffix s : trimStart s `suffix_of` s.
Proof.
  induction s as [|c s IH]; cbn [trimStart]; [done|].
  destruct (isWhiteSpace c); [by apply suffix_cons_r|done].
Qed.

Lemma trimStart_head s :
  match trimStart s with
  | [] => True
  | c :: _ => isWhiteSpace c = false
  end.
Proof.
  induction s as [|c s IH]; cbn [trimStart]; [done|].
  destruct (isWhiteSpace c) eqn:E; done.
Qed.

Lemma trimStart_fixed s :
  match s with [] => True | c :: _ => isWhiteSpace c = false end ->
  trimStart s = s.
Proof. destruct s as [|c s]; [done|]. cbn [trimStart]. by intros ->. Qed.

Lemma trimStart_idem s : trimStart (trimStart s) = trimStart s.
Proof. apply trimStart_fixed, trimStart_head. Qed.

Lemma trimStart_snoc s c :
  isWhiteSpace c = false -> trimStart (s ++ [c]) = trimStart s ++ [c].
Proof.
  intros Hc. induction s as [|a s IH]; cbn [app trimStart].
  - by rewrite Hc.
  - destruct (isWhiteSpace a); done.
Qed.

Lemma trimEnd_cons c s :
  isWhiteSpace c = false -> trimEnd (c :: s) = c :: trimEnd s.
Proof.
  intros Hc. unfold trimEnd. cbn [rev]. rewrite trimStart_snoc by done.
  by rewrite rev_app_distr.
Qed.

Lemma trimEnd_idem s : trimEnd (trimEnd s) = trimEnd s.
Proof. unfold trimEnd. by rewrite rev_involutive, trimStart_idem. Qed.

Lemma trimEnd_prefix s : trimEnd s `prefix_of` s.
Proof.
  destruct (trimStart_suffix (rev s)) as [pre E]. exists (rev pre).
  unfold trimEnd. rewrite <- rev_app_distr, <- E. by rewrite rev_involutive.
Qed.

Lemma trim_idem s : trim (trim s) = trim s.
Proof.
  unfold trim. pose proof (trimStart_head s) as Hh.
  destruct (trimStart s) as [|c t] eqn:E; [done|].
  rewrite trimEnd_cons by done. cbn [trimStart]. rewrite Hh.
  rewrite <- trimEnd_cons by done. apply trimEnd_idem.
Qed.

Lemma trim_infix s : exists pre post, s = pre ++ trim s ++ post.
Proof.
  destruct (trimStart_suffix s) as [pre E].
  destruct (trimEnd_prefix (trimStart s)) as [post E'].
  exists pre, post. unfold trim. by rewrite <- E'.
Qed.

(** ** Stripping the boilerplate *)

Lemma lastSuffix_nil_is_Some {R} (k : list Z -> captures -> option R) s caps :
  is_Some (k [] caps) -> is_Some (lastSuffix k s caps).
Proof.
  intros Hk. induction s as [|c s IH]; cbn [lastSuffix]; [done|].
  apply orElse_is_Some. by left.
Qed.

Lemma header_matchAt n0 s :
  matchAt n0 headerRegex s =
    if (length s =? n0)%nat
    then lastSuffix (fun s' c' => rmatch n0 headerTail s' c' matched) s []
    else None.
Proof.
  unfold matchAt.
  change (rmatch n0 headerRegex s [] matched)
    with (if (length s =? n0)%nat
          then rmatch n0 (RStar true (RChar CAny)) s []
                 (fun s' c' => rmatch n0 headerTail s' c' matched)
          else None).
  by rewrite rmatch_star_any.
Qed.

Lemma replace_header text :
  replaceFirst headerRegex [] text =
    match lastSuffix (fun s' c' => rmatch (length text) headerTail s' c' matched)
                     text [] with
    | Some (rest, _) => rest
    | None => text
    end.
Proof.
  unfold replaceFirst, exec.
  destruct text as [|c t]; cbn [execFrom]; rewrite header_matchAt, Nat.eqb_refl;
    destruct (lastSuffix _ _ _) as [[rest caps]|]; try done.
  rewrite execFrom_None; [done|]. intros s' Hs. rewrite header_matchAt.
  apply suffix_length in Hs.
  destruct (Nat.eqb_spec (length s') (length (c :: t))); [simpl in *; lia|done].
Qed.

(** After the header is cut, what is left is a suffix of the text in which
    the start marker matches nowhere. *)
Lemma header_strip text :
  replaceFirst headerRegex [] text `suffix_of` text /\
  frontFree headerTail (replaceFirst headerRegex [] text).
Proof.
  rewrite replace_header.
  destruct (lastSuffix _ text []) as [[rest caps]|] eqn:E.
  - apply lastSuffix_Some in E as (s1 & Hs1 & Hk & Hmin).
    apply rmatch_progress in Hk as (s' & c' & Hs' & Hl & [= <- <-]); [|reflexivity].
    split; [by etrans|]. intros s2 Hs2 Hm.
    apply (matchesFront_elim (length text) _ _ [] matched) in Hm;
      [|reflexivity|by eexists].
    rewrite Hmin in Hm; [by destruct Hm|by etrans|].
    intros ->. apply suffix_length in Hs2. lia.
  - split; [done|]. intros s2 Hs2 Hm.
    apply (matchesFront_elim (length text) _ _ [] matched) in Hm;
      [|reflexivity|by eexists].
    rewrite (lastSuffix_None _ _ _ E s2 Hs2) in Hm. by destruct Hm.
Qed.

Lemma header_noop text :
  frontFree headerTail text -> replaceFirst headerRegex [] text = text.
Proof.
  intros Hfree. rewrite replace_header.
  destruct (lastSuffix _ text []) as [[rest caps]|] eqn:E; [|done].
  exfalso. apply lastSuffix_Some in E as (s1 & Hs1 & Hk & _).
  apply (Hfree s1 Hs1).
  eapply (matchesFront_intro (length text)); [reflexivity|by rewrite Hk].
Qed.

Lemma footer_shape n0 s caps (k : list Z -> captures -> option (list Z * captures)) :
  rmatch n0 footerRegex s caps k =
    rmatch n0 footerCore s caps
      (fun s' c' => rmatch n0 (RStar true (RChar CAny)) s' c'
                      (fun s'' c'' => rmatch n0 (REol false) s'' c'' k)).
Proof. reflexivity. Qed.

Lemma footer_matchAt_inv n0 s rest caps :
  matchAt n0 footerRegex s = Some (rest, caps) ->
  rest = [] /\ matchesFront footerCore s.
Proof.
  unfold matchAt. rewrite footer_shape. intros Hm. split.
  - apply rmatch_inv in Hm as (s1 & c1 & _ & Hm).
    rewrite rmatch_star_any in Hm.
    apply lastSuffix_Some in Hm as (s2 & _ & Hk & _).
    destruct s2; cbn in Hk; [|done]. by injection Hk as <- _.
  - eapply (matchesFront_intro n0); [reflexivity|by rewrite Hm].
Qed.

Lemma footer_matchAt_intro n0 s :
  matchesFront footerCore s -> is_Some (matchAt n0 footerRegex s).
Proof.
  intros Hm. unfold matchAt. rewrite footer_shape.
  apply matchesFront_elim; [reflexivity| |done].
  intros s' c'. rewrite rmatch_star_any. apply lastSuffix_nil_is_Some.
  by eexists.
Qed.

(** After the footer is cut, what is left is a prefix of the text in which
    the end marker matches nowhere. *)
Lemma footer_strip text :
  replaceFirst footerRegex [] text `prefix_of` text /\
  frontFree footerCore (replaceFirst footerRegex [] text).
Proof.
  unfold replaceFirst, exec.
  destruct (execFrom _ _ _ text) as [[[i rest] caps]|] eqn:E.
  - apply execFrom_inv in E as (pre & s1 & -> & -> & Hm & Hmin).
    apply footer_matchAt_inv in Hm as [-> _].
    cbn [Nat.add]. rewrite take_app_length, !app_nil_r.
    split; [by exists s1|]. intros s2 [p ->] Hm2.
    destruct s2 as [|c s2].
    + destruct Hm2 as [x Hx]. unfold matchAt in Hx.
      apply rmatch_progress in Hx as (? & ? & _ & Hl & _); [|reflexivity].
      simpl in Hl. lia.
    + apply (matchesFront_ext _ _ s1) in Hm2; [|reflexivity].
      apply (footer_matchAt_intro (length ((p ++ c :: s2) ++ s1))) in Hm2.
      rewrite Hmin in Hm2; [by destruct Hm2| |rewrite length_app; simpl; lia].
      exists p. by rewrite <- app_assoc.
  - split; [done|]. intros s2 Hs2 Hm2.
    apply (footer_matchAt_intro (length text)) in Hm2.
    rewrite (execFrom_None_inv _ _ _ _ E s2 Hs2) in Hm2. by destruct Hm2.
Qed.

Lemma footer_noop text :
  frontFree footerCore text -> replaceFirst footerRegex [] text = text.
Proof.
  intros Hfree. unfold replaceFirst, exec. rewrite execFrom_None; [done|].
  intros s' Hs. destruct (matchAt _ _ s') as [[rest caps]|] eqn:E; [|done].
  exfalso. apply footer_matchAt_inv in E as [_ Hm]. by apply (Hfree s').
Qed.

(** On a plain text the cleaning is the cut of the header, the cut of the
    footer and the trimming, and its result is a plain piece of the text in
    which neither marker matches. *)
Lemma cleanText_plain text :
  plainText text ->
  cleanText text
    = trim (replaceFirst footerRegex [] (replaceFirst headerRegex [] text)) /\
  plainText (cleanText text) /\
  frontFree headerTail (cleanText text) /\
  frontFree footerCore (cleanText text).
Proof.
  intros Hp.
  destruct (header_strip text) as [[pre1 E1] Hfree1].
  destruct (footer_strip (replaceFirst headerRegex [] text)) as [[post2 E2] Hfree2].
  set (x1 := replaceFirst headerRegex [] text) in *.
  set (x2 := replaceFirst footerRegex [] x1) in *.
  destruct (trim_infix x2) as (pre3 & post3 & E3).
  assert (Hp1 : plainText x1).
  { apply (plainText_infix pre1 x1 []). by rewrite app_nil_r, <- E1. }
  assert (Hp2 : plainText x2).
  { apply (plainText_infix [] x2 post2). by rewrite <- E2. }
  assert (Hp3 : plainText (trim x2)).
  { apply (plainText_infix pre3 (trim x2) post3). by rewrite <- E3. }
  assert (Hclean : cleanText text = trim x2).
  { unfold cleanText, stripGutenbergBoilerplate. fold x1. fold x2.
    rewrite (replaceFirst_requires CR); [|reflexivity|].
    - by apply fixText_plain.
    - by apply plainText_not_elem in Hp2 as (_ & _ & Hcr). }
  rewrite Hclean. split; [done|]. split; [done|]. split.
  - apply (frontFree_infix _ pre3 (trim x2) (post3 ++ post2)); [reflexivity|].
    replace (pre3 ++ trim x2 ++ post3 ++ post2) with x1; [done|].
    rewrite E2, E3 at 1. by rewrite <- !app_assoc.
  - apply (frontFree_infix _ pre3 (trim x2) post3); [reflexivity|].
    by rewrite <- E3.
Qed.

(** ** Declarations of encoding and language *)

Lemma declaration_matchAt n0 label s :
  matchAt n0 (declarationRegex label) s =
    if startsWith label s
    then Some (lineRest (drop (length label) s),
               [(1%nat, lineHead (drop (length label) s))])
    else None.
Proof.
  unfold matchAt, declarationRegex. cbn [RCat].
  change (rmatch n0 (RSeq (RLit label) ?r) s [] matched)
    with (rmatch n0 (RLit label) s [] (fun s' c' => rmatch n0 r s' c' matched)).
  rewrite rmatch_RLit. destruct (startsWith label s); [|done].
  by rewrite rmatch_line.
Qed.

Lemma readDeclaration_absent label fallback text :
  ~ occurs label text -> readDeclaration label fallback text = fallback.
Proof.
  intros Habs. unfold readDeclaration, exec. rewrite execFrom_None; [done|].
  intros s' [pre ->]. rewrite declaration_matchAt.
  destruct (startsWith label s') eqn:E; [|done].
  exfalso. apply Habs. exists pre, (drop (length label) s').
  f_equal. by apply startsWith_inv.
Qed.

Lemma readDeclaration_declared label fallback text v :
  declares label text v -> readDeclaration label fallback text = toLowerCase v.
Proof.
  intros (pre & rest & -> & Hfirst & Hv & Hrest).
  unfold readDeclaration, exec. rewrite execFrom_skip.
  - erewrite execFrom_hit; [|rewrite declaration_matchAt, startsWith_app; done].
    rewrite drop_app_length.
    destruct (lineHead_app v rest Hv Hrest) as [-> _]. done.
  - intros s' [pre' E] Hl. rewrite declaration_matchAt.
    destruct (startsWith label s') eqn:Es; [|done].
    exfalso. apply startsWith_inv in Es.
    assert (Hle := Hfirst pre' (drop (length label) s')).
    rewrite <- Es in Hle. specialize (Hle E).
    apply (f_equal length) in E. rewrite !length_app in E.
    rewrite !length_app in Hl. lia.
Qed.

Lemma occurs_occursb lit text : occurs lit text -> occursb lit text = true.
Proof.
  intros (pre & post & ->). induction pre as [|a pre IH].
  - destruct (lit ++ post) eqn:E; cbn [app occursb]; rewrite <- ?E;
      by rewrite startsWith_app.
  - cbn [app occursb]. rewrite IH. apply orb_true_r.
Qed.

(** A way to check [declares] on a given text by evaluation. *)
Lemma declares_check label pre v rest :
  forallb (fun j => negb (startsWith label (drop j (pre ++ label ++ v ++ rest))))
          (seq 0 (length pre)) = true ->
  forallb (fun c => negb (isLineTerminator c)) v = true ->
  match rest with [] => true | c :: _ => isLineTerminator c end = true ->
  declares label (pre ++ label ++ v ++ rest) v.
Proof.
  intros Hfirst Hv Hrest. exists pre, rest. split; [done|].
  split; [|split].
  - intros pre' post' E.
    destruct (Nat.le_gt_cases (length pre) (length pre')) as [|Hlt]; [done|].
    exfalso. rewrite forallb_forall in Hfirst.
    specialize (Hfirst (length pre')). rewrite E in Hfirst.
    rewrite drop_app_length, startsWith_app in Hfirst.
    assert (Hin : In (length pre') (seq 0 (length pre))) by (apply in_seq; lia).
    apply Hfirst in Hin. done.
  - rewrite forallb_forall in Hv. apply List.Forall_forall. intros c Hc.
    apply Hv in Hc. by destruct (isLineTerminator c).
  - destruct rest as [|c rest']; [by left|right; eauto].
Qed.

Section DialectProperties.
Context `{Runtime}.

(** C6 (amended): the labels [Character set encoding: ] and [Language: ] are
    matched as they are written, with regard to case; what follows the first
    occurrence of the label up to the end of its line is the declared name,
    compared in lower case; a text in which the label does not occur declares
    ascii and english; and a book whose declared language is not english is
    answered with the dialect error, not with a cleaned text. *)
Theorem declarations_read_by_exact_label :
  (forall text, ~ occurs (js "Character set encoding: ") text ->
                getBookEncoding text = js "ascii") /\
  (forall text, ~ occurs (js "Language: ") text ->
                getBookLanguage text = js "english") /\
  (forall text v, declares (js "Character set encoding: ") text v ->
                  getBookEncoding text = toLowerCase v) /\
  (forall text v, declares (js "Language: ") text v ->
                  getBookLanguage text = toLowerCase v) /\
  (forall github repo sha id data h now,
      repo_blob github repo sha = Reply data (Some h) now ->
      getBookLanguage
        (bufferToString (newBuffer (blob_content data) (blob_encoding data)))
        <> js "english" ->
      snd (getGutenbergBookFromBlob github repo sha id)
        = Ret (inl (DialectError id))).
Proof.
  split; [|split; [|split; [|split]]].
  - intros text. apply readDeclaration_absent.
  - intros text. apply readDeclaration_absent.
  - intros text v. apply readDeclaration_declared.
  - intros text v. apply readDeclaration_declared.
  - intros github repo sha id data h now Eb Hl.
    unfold getGutenbergBookFromBlob. rewrite Eb.
    unfold str_eqb. rewrite bool_decide_eq_false_2 by done. cbn [negb].
    unfold getRateTimeout.
    destruct (x_ratelimit_remaining h <? 1); reflexivity.
Qed.
End DialectProperties.

Lemma declarations_read_by_exact_label_witness :
  getBookEncoding Sample.frenchText = js "ascii" /\
  getBookLanguage (js "no declaration") = js "english" /\
  getBookEncoding Sample.oddText = toLowerCase (js "KOI8-R") /\
  getBookLanguage Sample.frenchText = toLowerCase (js "French") /\
  snd (@getGutenbergBookFromBlob Sample.runtime
         (Sample.library "52.txt" Sample.frenchText
                         Sample.quota Sample.quota Sample.quota)
         (js "GITenberg/Seeds_52") (js "bb") (Some 52))
    = Ret (inl (DialectError (Some 52))).
Proof.
  pose proof (@declarations_read_by_exact_label Sample.runtime)
    as (Hascii & Henglish & Hencoding & Hlanguage & Hdialect).
  split; [|split; [|split; [|split]]].
  - apply Hascii. intros Ho. apply occurs_occursb in Ho.
    vm_compute in Ho. discriminate.
  - apply Henglish. intros Ho. apply occurs_occursb in Ho.
    vm_compute in Ho. discriminate.
  - apply Hencoding.
    apply (declares_check (js "Character set encoding: ")
             (js "Language: English" ++ [LF]) (js "KOI8-R") ([LF; LF] ++ js "x"));
      vm_compute; reflexivity.
  - apply Hlanguage.
    apply (declares_check (js "Language: ")
             (js "Title: Graines" ++ [LF]) (js "French")
             ([LF; LF] ++ js "Un paragraphe."));
      vm_compute; reflexivity.
  - eapply Hdialect.
    + vm_compute. reflexivity.
    + vm_compute. discriminate.
Defined.

(** C6 as stated fails: a declaration line written [language: French] is not
    matched, so the language read is english where the pattern taken without
    regard to case reads french, and the book is cleaned and returned instead
    of being answered with the dialect error. *)
Lemma lower_case_label_not_matched :
  getBookLanguage Sample.lowerCaseText = js "english" /\
  getBookLanguage_spec Sample.lowerCaseText = js "french" /\
  snd (@getGutenbergBookFromBlob Sample.runtime
         (Sample.library "52.txt" Sample.lowerCaseText
                         Sample.quota Sample.quota Sample.quota)
         (js "GITenberg/Seeds_52") (js "bb") (Some 52))
    = Ret (inr (cleanText Sample.lowerCaseText)).
Proof. split; [|split]; vm_compute; reflexivity. Qed.

(** * Further properties of the code *)

(** ** Book identifiers *)

(** X1: for a seed that is not negative and a positive [maxId],
    [clampBookId] is the seed modulo [maxId], a number from 0 up to
    [maxId - 1]. *)
Theorem clampBookId_range (cfg : Config) (id : Z) :
  0 <= id -> 0 < maxId cfg ->
  exists b, clampBookId cfg id = Some b /\ b = id mod maxId cfg /\
            0 <= b < maxId cfg.
Proof.
  intros Hid Hmax. exists (Z.rem id (maxId cfg)).
  unfold clampBookId, jsRem. destruct (Z.eqb_spec (maxId cfg) 0); [lia|].
  split; [done|]. split; [apply Z.rem_mod_nonneg; lia|].
  apply Z.rem_bound_pos; lia.
Qed.

Lemma clampBookId_range_witness :
  exists b, clampBookId Sample.cfg 142 = Some b /\ b = 142 mod maxId Sample.cfg /\
            0 <= b < maxId Sample.cfg.
Proof. apply clampBookId_range; simpl; lia. Defined.

(** X2: outside that range the remainder keeps the sign of the seed: a
    negative seed gives a book identifier that is zero or negative, the
    opposite of the clamp of the opposite seed; and a [maxId] of zero gives
    [NaN], which no list of excluded books contains. *)
Theorem clampBookId_edges (cfg : Config) (id : Z) :
  (id < 0 -> 0 < maxId cfg ->
   exists b, clampBookId cfg id = Some b /\ - maxId cfg < b <= 0 /\
             b = - ((- id) mod maxId cfg)) /\
  (maxId cfg = 0 ->
   clampBookId cfg id = None /\ excluded cfg (clampBookId cfg id) = false).
Proof.
  unfold clampBookId, jsRem. split.
  - intros Hid Hmax. destruct (Z.eqb_spec (maxId cfg) 0); [lia|].
    exists (Z.rem id (maxId cfg)). split; [done|].
    assert (E : Z.rem id (maxId cfg) = - ((- id) mod maxId cfg)).
    { rewrite <- (Z.rem_mod_nonneg (- id)) by lia.
      rewrite <- Z.rem_opp_l by lia. f_equal. lia. }
    pose proof (Z.mod_pos_bound (- id) (maxId cfg) Hmax). split; [lia|done].
  - intros ->. done.
Qed.

Lemma clampBookId_edges_witness :
  (exists b, clampBookId Sample.cfg (-142) = Some b /\
             - maxId Sample.cfg < b <= 0 /\
             b = - ((- (-142)) mod maxId Sample.cfg)) /\
  (clampBookId {| maxId := 0; excludes := [0]; startId := 0; paragraphLimit := 1 |} 7
     = None /\
   excluded {| maxId := 0; excludes := [0]; startId := 0; paragraphLimit := 1 |}
     (clampBookId {| maxId := 0; excludes := [0]; startId := 0;
                     paragraphLimit := 1 |} 7) = false).
Proof.
  split.
  - apply (proj1 (clampBookId_edges Sample.cfg (-142))); simpl; lia.
  - apply (proj2 (clampBookId_edges
                    {| maxId := 0; excludes := [0]; startId := 0;
                       paragraphLimit := 1 |} 7)).
    reflexivity.
Defined.

(** ** Index derivation *)

Lemma codeSum_app (a b : list Z) : codeSum (a ++ b) = codeSum a + codeSum b.
Proof. induction a as [|c a IH]; cbn [app codeSum]; lia. Qed.

(** X3: the index of a concatenation is the sum of the indices of its
    parts. *)
Theorem getNextIndex_app (a b : list Z) :
  getNextIndex (a ++ b) = getNextIndex a + getNextIndex b.
Proof. rewrite !getNextIndex_codeSum. apply codeSum_app. Qed.

(** X4: the index does not depend on the order of the characters: two texts
    with the same characters in another order derive the same seed. *)
Theorem getNextIndex_permutation (a b : list Z) :
  a ≡ₚ b -> getNextIndex a = getNextIndex b.
Proof.
  intros Hp. rewrite !getNextIndex_codeSum.
  induction Hp; cbn [codeSum]; lia.
Qed.

Lemma getNextIndex_permutation_witness :
  getNextIndex (js "listen") = getNextIndex (rev (js "listen")).
Proof.
  apply getNextIndex_permutation. apply Permutation_rev.
Defined.

(** X5: on a string of UTF-16 code units the index is not negative and at
    most 65535 times the length. *)
Theorem getNextIndex_range (text : list Z) :
  wfString text -> 0 <= getNextIndex text <= 65535 * Z.of_nat (length text).
Proof. intros Hwf. rewrite getNextIndex_codeSum. by apply codeSum_bound. Qed.

Lemma getNextIndex_range_witness :
  0 <= getNextIndex (js "ab") <= 65535 * Z.of_nat (length (js "ab")).
Proof.
  apply getNextIndex_range. unfold wfString.
  change (js "ab") with [97; 98]. repeat constructor; lia.
Defined.

(** ** The three replacements of [fixedText] *)

Lemma matchAt_char n0 c x s :
  matchAt n0 (RChar (CChr c)) (x :: s) = if x =? c then Some (s, []) else None.
Proof. reflexivity. Qed.

Lemma replaceAllFrom_cons n0 r repl c s :
  replaceAllFrom n0 r repl O (c :: s) =
    match matchAt n0 r (c :: s) with
    | None => c :: replaceAllFrom n0 r repl O s
    | Some (rest, _) =>
        match (length (c :: s) - length rest)%nat with
        | O => repl ++ c :: replaceAllFrom n0 r repl O s
        | S n => repl ++ replaceAllFrom n0 r repl n s
        end
    end.
Proof. reflexivity. Qed.

Lemma replaceAllFrom_skip n0 r repl n c s :
  replaceAllFrom n0 r repl (S n) (c :: s) = replaceAllFrom n0 r repl n s.
Proof. reflexivity. Qed.

Lemma replaceAll_char c : forall n0 s,
  replaceAllFrom n0 (RChar (CChr c)) [] O s = filter (fun x => x <> c) s.
Proof.
  intros n0. induction s as [|x s IH]; [done|].
  rewrite replaceAllFrom_cons, matchAt_char.
  destruct (Z.eqb_spec x c) as [->|Hne].
  - replace (length (c :: s) - length s)%nat with 1%nat by (simpl; lia).
    cbn [app]. rewrite IH. by rewrite filter_cons_False by (intros Hc; done).
  - rewrite IH. by rewrite filter_cons_True.
Qed.

Lemma matchAt_crlf n0 s :
  matchAt n0 (RLit [CR; LF]) s =
    if startsWith [CR; LF] s then Some (drop 2 s, []) else None.
Proof. unfold matchAt. by rewrite rmatch_RLit. Qed.

Lemma replaceAll_crlf n0 : forall n s,
  (length s <= n)%nat ->
  replaceAllFrom n0 (RLit [CR; LF]) [LF] O s = crlfToLf s.
Proof.
  induction n as [|n IH]; intros s Hn.
  - destruct s; [done|simpl in Hn; lia].
  - destruct s as [|a [|b s]]; [done| |].
    + rewrite replaceAllFrom_cons, matchAt_crlf. cbn [startsWith].
      by rewrite andb_false_r.
    + rewrite replaceAllFrom_cons, matchAt_crlf. cbn [startsWith drop crlfToLf].
      rewrite andb_true_r.
      destruct ((a =? CR) && (b =? LF)) eqn:E.
      * rewrite drop_0.
        replace (length (a :: b :: s) - length s)%nat with 2%nat
          by (simpl; lia).
        rewrite replaceAllFrom_skip. cbn [app]. f_equal.
        apply IH. simpl in Hn. lia.
      * f_equal. apply IH. simpl in Hn. simpl. lia.
Qed.

Lemma fixText_filter (text : list Z) :
  fixText text =
    crlfToLf (filter (fun c => c <> plus) (filter (fun c => c <> underscore) text)).
Proof.
  unfold fixText, replaceAll.
  rewrite (replaceAll_crlf _ (length (replaceAllFrom _ _ _ _ _))) by done.
  by rewrite !replaceAll_char.
Qed.

(** X6: the three replacements of [fixedText] remove every underscore, then
    every plus sign, and then replace each CR LF pair by LF, from left to
    right. *)
Theorem fixText_spec (text : list Z) :
  fixText text =
    crlfToLf (filter (fun c => c <> plus) (filter (fun c => c <> underscore) text)).
Proof. apply fixText_filter. Qed.

Lemma crlfToLf_elem x : forall n s,
  (length s <= n)%nat -> x ∈ crlfToLf s -> x ∈ s.
Proof.
  induction n as [|n IH]; intros s Hn.
  - destruct s; [done|simpl in Hn; lia].
  - destruct s as [|a [|b s]]; [done|done|]. cbn [crlfToLf].
    destruct ((a =? CR) && (b =? LF)) eqn:E.
    + intros [->|Hin]%elem_of_cons.
      * apply andb_prop in E as [_ ->%Z.eqb_eq].
        apply elem_of_cons. right. left.
      * do 2 (apply elem_of_cons; right). apply IH; [simpl in Hn; lia|done].
    + intros [->|Hin]%elem_of_cons; [left|].
      apply elem_of_cons. right. apply IH; [simpl in *; lia|done].
Qed.

Lemma crlfToLf_length : forall n s,
  (length s <= n)%nat -> (length (crlfToLf s) <= length s)%nat.
Proof.
  induction n as [|n IH]; intros s Hn.
  - destruct s; [done|simpl in Hn; lia].
  - destruct s as [|a [|b s]]; [done|done|]. cbn [crlfToLf].
    destruct ((a =? CR) && (b =? LF)); cbn [length].
    + specialize (IH s). simpl in Hn. lia.
    + specialize (IH (b :: s)). simpl in *. lia.
Qed.

(** X7: the cleaned text contains no underscore and no plus sign, whatever
    the decoded text, and the replacements never lengthen a text. *)
Theorem cleanText_no_markup (text : list Z) :
  (underscore ∉ cleanText text) /\ (plus ∉ cleanText text) /\
  (length (fixText text) <= length text)%nat.
Proof.
  assert (Hno : forall t, (underscore ∉ fixText t) /\ (plus ∉ fixText t)).
  { intros t. rewrite fixText_filter.
    split; intros Hin; apply (crlfToLf_elem _ _ _ (le_n _)) in Hin;
      rewrite !list_elem_of_filter in Hin; tauto. }
  split; [apply Hno|]. split; [apply Hno|].
  rewrite fixText_filter. etrans; [by apply (crlfToLf_length _ _ (le_n _))|].
  etrans; [apply length_filter|]. apply length_filter.
Qed.

(** ** Stripping the boilerplate, on every text *)

Lemma matchAt_bol n0 r s :
  matchAt n0 (RSeq RBol r) s =
    if (length s =? n0)%nat then matchAt n0 r s else None.
Proof. reflexivity. Qed.

Lemma matchAt_suffix n0 r s rest caps :
  matchAt n0 r s = Some (rest, caps) -> rest `suffix_of` s.
Proof.
  unfold matchAt. intros Hm.
  apply rmatch_inv in Hm as (s' & c' & Hs & [= <- <-]). done.
Qed.

Lemma producedBy_strip text :
  replaceFirst producedByRegex [] text `suffix_of` text.
Proof.
  unfold replaceFirst, exec.
  destruct (execFrom _ _ _ text) as [[[i rest] caps]|] eqn:E; [|done].
  apply execFrom_inv in E as (pre & s1 & -> & -> & Hm & _).
  unfold producedByRegex in Hm. cbn [RCat] in Hm. rewrite matchAt_bol in Hm.
  destruct (Nat.eqb_spec (length s1) (length (pre ++ s1))) as [El|]; [|done].
  rewrite length_app in El. destruct pre; [|simpl in El; lia].
  apply matchAt_suffix in Hm. done.
Qed.

Lemma trim_trimmed s : trimmed (trim s).
Proof.
  unfold trimmed, trim. split.
  - pose proof (trimStart_head s) as Hh.
    destruct (trimStart s) as [|c t]; [done|].
    rewrite trimEnd_cons by done. by intros c' [= <-].
  - unfold trimEnd. pose proof (trimStart_head (rev (trimStart s))) as Hh.
    destruct (trimStart (rev (trimStart s))) as [|c t]; [done|].
    cbn [rev]. intros c'. rewrite last_snoc. by intros [= <-].
Qed.

(** The pieces that [stripGutenbergBoilerplate] goes through. *)
Lemma strip_pieces text :
  let x1 := replaceFirst headerRegex [] text in
  let x2 := replaceFirst footerRegex [] x1 in
  let x3 := replaceFirst producedByRegex [] x2 in
  (exists pre1, text = pre1 ++ x1) /\ (exists post2, x1 = x2 ++ post2) /\
  (exists pre3, x2 = pre3 ++ x3) /\
  (exists pre4 post4, x3 = pre4 ++ stripGutenbergBoilerplate text ++ post4).
Proof.
  intros x1 x2 x3.
  split; [apply header_strip|]. split; [apply footer_strip|].
  split; [apply producedBy_strip|]. apply trim_infix.
Qed.

Lemma strip_infix text :
  exists pre post, text = pre ++ stripGutenbergBoilerplate text ++ post.
Proof.
  destruct (strip_pieces text)
    as ((pre1 & E1) & (post2 & E2) & (pre3 & E3) & (pre4 & post4 & E4)).
  exists (pre1 ++ pre3 ++ pre4), (post4 ++ post2).
  rewrite E1 at 1. rewrite E2 at 1. rewrite E3 at 1. rewrite E4 at 1.
  by rewrite <- !app_assoc.
Qed.

Lemma strip_marker_free text :
  frontFree headerTail (stripGutenbergBoilerplate text) /\
  frontFree footerCore (stripGutenbergBoilerplate text).
Proof.
  destruct (strip_pieces text)
    as (_ & (post2 & E2) & (pre3 & E3) & (pre4 & post4 & E4)).
  destruct (header_strip text) as [_ Hfree1].
  destruct (footer_strip (replaceFirst headerRegex [] text)) as [_ Hfree2].
  split.
  - apply (frontFree_infix _ (pre3 ++ pre4) _ (post4 ++ post2)); [reflexivity|].
    replace ((pre3 ++ pre4) ++ stripGutenbergBoilerplate text ++ post4 ++ post2)
      with (replaceFirst headerRegex [] text); [done|].
    rewrite E2 at 1. rewrite E3 at 1. rewrite E4 at 1.
    by rewrite <- !app_assoc.
  - apply (frontFree_infix _ (pre3 ++ pre4) _ post4); [reflexivity|].
    replace ((pre3 ++ pre4) ++ stripGutenbergBoilerplate text ++ post4)
      with (replaceFirst footerRegex [] (replaceFirst headerRegex [] text));
      [done|].
    rewrite E3 at 1. rewrite E4 at 1. by rewrite <- !app_assoc.
Qed.

Lemma not_elem_check (c : Z) (s : list Z) :
  forallb (fun x => negb (x =? c)) s = true -> c ∉ s.
Proof.
  rewrite forallb_forall. intros Hall Hin. apply list_elem_of_In in Hin.
  apply Hall in Hin. by rewrite Z.eqb_refl in Hin.
Qed.

(** X8: [stripGutenbergBoilerplate] only cuts: its result is a piece of the
    text in one stretch, and it neither starts nor ends with white space. *)
Theorem strip_cuts_and_trims (text : list Z) :
  (exists pre post, text = pre ++ stripGutenbergBoilerplate text ++ post) /\
  trimmed (stripGutenbergBoilerplate text).
Proof. split; [apply strip_infix|apply trim_trimmed]. Qed.

(** X9: in the stripped text the start marker followed by asterisks matches
    nowhere, and the end marker matches nowhere, whatever the text was. *)
Theorem strip_leaves_no_marker (text : list Z) :
  frontFree headerTail (stripGutenbergBoilerplate text) /\
  frontFree footerCore (stripGutenbergBoilerplate text).
Proof. apply strip_marker_free. Qed.

(** X10: on a text without carriage return, stripping the stripped text
    changes nothing. *)
Theorem strip_idempotent_without_CR (text : list Z) :
  CR ∉ text ->
  stripGutenbergBoilerplate (stripGutenbergBoilerplate text)
    = stripGutenbergBoilerplate text.
Proof.
  intros Hcr.
  destruct (strip_infix text) as (pre & post & E).
  destruct (strip_marker_free text) as [Hfree1 Hfree2].
  assert (Hcr' : CR ∉ stripGutenbergBoilerplate text).
  { intros Hin. apply Hcr. rewrite E. rewrite !elem_of_app. tauto. }
  set (o := stripGutenbergBoilerplate text) in *.
  unfold stripGutenbergBoilerplate at 1.
  rewrite (header_noop _ Hfree1), (footer_noop _ Hfree2).
  rewrite (replaceFirst_requires CR); [|reflexivity|done].
  unfold o, stripGutenbergBoilerplate. apply trim_idem.
Qed.

Lemma strip_idempotent_without_CR_witness :
  stripGutenbergBoilerplate (stripGutenbergBoilerplate Sample.bookText)
    = stripGutenbergBoilerplate Sample.bookText.
Proof.
  apply strip_idempotent_without_CR.
  apply not_elem_check. vm_compute. reflexivity.
Defined.

(** ** Cleaning a cleaned text *)

Lemma trimmed_trim s : trimmed s -> trim s = s.
Proof.
  intros [Hh Hl]. unfold trim.
  assert (Hs : trimStart s = s).
  { apply trimStart_fixed. destruct s as [|c s]; [done|]. by apply Hh. }
  rewrite Hs. unfold trimEnd.
  destruct (rev s) as [|c t] eqn:E.
  - apply (f_equal (@rev Z)) in E. by rewrite rev_involutive in E.
  - assert (Es : s = rev t ++ [c]).
    { apply (f_equal (@rev Z)) in E. by rewrite rev_involutive in E. }
    cbn [trimStart]. rewrite (Hl c); [by rewrite Es|].
    rewrite Es. apply last_snoc.
Qed.

Lemma filter_absent (c : Z) (s : list Z) :
  c ∉ s -> filter (fun x => x <> c) s = s.
Proof.
  induction s as [|a s IH]; [done|]. intros Hc.
  rewrite filter_cons_True.
  - f_equal. apply IH. intros Hin. apply Hc. by right.
  - intros ->. apply Hc. by left.
Qed.

Lemma fixText_no_markup (text : list Z) :
  (underscore ∉ fixText text) /\ (plus ∉ fixText text).
Proof.
  rewrite fixText_filter.
  split; intros Hin; apply (crlfToLf_elem _ _ _ (le_n _)) in Hin;
    rewrite !list_elem_of_filter in Hin; tauto.
Qed.

Lemma fixText_length (text : list Z) :
  (length (fixText text) <= length text)%nat.
Proof.
  rewrite fixText_filter. etrans; [by apply (crlfToLf_length _ _ (le_n _))|].
  etrans; [apply length_filter|]. apply length_filter.
Qed.

Lemma occurs_cons lit a s : occurs lit s -> occurs lit (a :: s).
Proof. intros (pre & post & ->). by exists (a :: pre), post. Qed.

Lemma occurs_crlf_tail a b s :
  (a =? CR) && (b =? LF) = false ->
  occurs [CR; LF] (a :: b :: s) -> occurs [CR; LF] (b :: s).
Proof.
  intros Hab (pre & post & E). destruct pre as [|x pre].
  - injection E as -> ->. by rewrite !Z.eqb_refl in Hab.
  - injection E as -> E. by exists pre, post.
Qed.

(** Without a CR LF pair the last replacement changes nothing; with one, it
    shortens the text. *)
Lemma crlfToLf_fixed : forall n s,
  (length s <= n)%nat -> ~ occurs [CR; LF] s -> crlfToLf s = s.
Proof.
  induction n as [|n IH]; intros s Hn Hno.
  - destruct s; [done|simpl in Hn; lia].
  - destruct s as [|a [|b s]]; [done|done|].
    change (crlfToLf (a :: b :: s))
      with (if (a =? CR) && (b =? LF) then LF :: crlfToLf s
            else a :: crlfToLf (b :: s)).
    destruct ((a =? CR) && (b =? LF)) eqn:E.
    + exfalso. apply Hno. apply andb_prop in E as [->%Z.eqb_eq ->%Z.eqb_eq].
      by exists [], s.
    + f_equal. apply IH; [simpl in *; lia|].
      intros Ho. apply Hno. by apply occurs_cons.
Qed.

Lemma crlfToLf_shrinks : forall n s,
  (length s <= n)%nat -> occurs [CR; LF] s ->
  (length (crlfToLf s) < length s)%nat.
Proof.
  induction n as [|n IH]; intros s Hn Ho.
  - destruct s; [|simpl in Hn; lia].
    destruct Ho as (pre & post & E). by destruct pre.
  - destruct s as [|a [|b s]].
    + destruct Ho as (pre & post & E). by destruct pre.
    + destruct Ho as (pre & post & E). destruct pre as [|x [|y pre]]; done.
    + change (crlfToLf (a :: b :: s))
        with (if (a =? CR) && (b =? LF) then LF :: crlfToLf s
              else a :: crlfToLf (b :: s)).
      destruct ((a =? CR) && (b =? LF)) eqn:E.
      * pose proof (crlfToLf_length _ s (le_n _)). simpl. lia.
      * apply occurs_crlf_tail in Ho; [|done].
        assert (Hb : (length (b :: s) <= n)%nat) by (simpl in Hn; simpl; lia).
        specialize (IH (b :: s) Hb Ho).
        change (length (a :: crlfToLf (b :: s)))
          with (S (length (crlfToLf (b :: s)))).
        change (length (a :: b :: s)) with (S (length (b :: s))). lia.
Qed.

Lemma rmatch_seq_inv {R} n0 r1 r2 s caps (k : list Z -> captures -> option R) x :
  rmatch n0 (RSeq r1 r2) s caps k = Some x ->
  exists s' caps', s' `suffix_of` s /\ rmatch n0 r2 s' caps' k = Some x.
Proof. intros Hm. cbn [rmatch] in Hm. by apply rmatch_inv in Hm. Qed.

Lemma rmatch_group_lit {R} n0 n l r2 s caps
      (k : list Z -> captures -> option R) x :
  rmatch n0 (RSeq (RGroup n (RLit l)) r2) s caps k = Some x ->
  startsWith l s = true.
Proof.
  intros Hm.
  change (rmatch n0 (RLit l) s caps
            (fun s' caps' =>
               rmatch n0 r2 s' ((n, take (length s - length s') s) :: caps') k)
          = Some x) in Hm.
  rewrite rmatch_RLit in Hm. by destruct (startsWith l s).
Qed.

Lemma occurs_suffix lit s' s : s' `suffix_of` s -> occurs lit s' -> occurs lit s.
Proof.
  intros [p ->] (pre & post & ->). exists (p ++ pre), post.
  by rewrite <- app_assoc.
Qed.

(** The Produced-by pattern needs a CR LF pair. *)
Lemma producedBy_needs_crlf n0 s rest caps :
  matchAt n0 producedByRegex s = Some (rest, caps) -> occurs [CR; LF] s.
Proof.
  unfold matchAt, producedByRegex. cbn [RCat]. intros Hm.
  apply rmatch_seq_inv in Hm as (s1 & c1 & H1 & Hm).
  apply rmatch_seq_inv in Hm as (s2 & c2 & H2 & Hm).
  apply rmatch_seq_inv in Hm as (s3 & c3 & H3 & Hm).
  apply rmatch_seq_inv in Hm as (s4 & c4 & H4 & Hm).
  apply rmatch_seq_inv in Hm as (s5 & c5 & H5 & Hm).
  apply rmatch_seq_inv in Hm as (s6 & c6 & H6 & Hm).
  apply rmatch_group_lit in Hm. apply startsWith_inv in Hm.
  apply (occurs_suffix _ s6); [by repeat (etrans; [eassumption|])|].
  exists [], (drop (length [CR; LF]) s6). exact Hm.
Qed.

Lemma producedBy_noop text :
  ~ occurs [CR; LF] text -> replaceFirst producedByRegex [] text = text.
Proof.
  intros Hno. unfold replaceFirst, exec. rewrite execFrom_None; [done|].
  intros s' Hs. destruct (matchAt _ _ s') as [[rest caps]|] eqn:E; [|done].
  exfalso. apply Hno. apply (occurs_suffix _ s'); [done|].
  by eapply producedBy_needs_crlf.
Qed.

Lemma infix_full {A} (pre x post : list A) :
  length x = length (pre ++ x ++ post) -> pre ++ x ++ post = x.
Proof.
  rewrite !length_app. intros Hl.
  destruct pre; [|simpl in Hl; lia]. destruct post; [|simpl in Hl; lia].
  by rewrite app_nil_r.
Qed.

(** A text is left as it is by [stripGutenbergBoilerplate] exactly when it
    neither starts nor ends with white space, holds neither marker and does
    not start with a Produced-by block. *)
Lemma strip_fixed text :
  trimmed text -> frontFree headerTail text -> frontFree footerCore text ->
  ~ occurs [CR; LF] text ->
  stripGutenbergBoilerplate text = text.
Proof.
  intros Ht Hh Hf Hno. unfold stripGutenbergBoilerplate.
  rewrite (header_noop _ Hh), (footer_noop _ Hf), (producedBy_noop _ Hno).
  by apply trimmed_trim.
Qed.

Lemma fixText_fixed text :
  underscore ∉ text -> plus ∉ text -> ~ occurs [CR; LF] text ->
  fixText text = text.
Proof.
  intros Hu Hp Hno. rewrite fixText_filter.
  rewrite (filter_absent _ _ Hu), (filter_absent _ _ Hp).
  by apply (crlfToLf_fixed _ _ (le_n _)).
Qed.

Lemma cleanText_fixed_iff text :
  cleanText (cleanText text) = cleanText text <->
  trimmed (cleanText text) /\ frontFree headerTail (cleanText text) /\
  frontFree footerCore (cleanText text) /\ ~ occurs [CR; LF] (cleanText text).
Proof.
  destruct (fixText_no_markup (stripGutenbergBoilerplate text)) as [Hu Hp].
  fold (cleanText text) in Hu, Hp. set (out := cleanText text) in *. split.
  - intros Hid.
    assert (Hs : stripGutenbergBoilerplate out = out).
    { destruct (strip_infix out) as (pre & post & E).
      rewrite E at 2. symmetry. apply infix_full. rewrite <- E.
      pose proof (fixText_length (stripGutenbergBoilerplate out)) as Hl.
      fold (cleanText out) in Hl. rewrite Hid in Hl.
      assert (length (stripGutenbergBoilerplate out) <= length out)%nat.
      { rewrite E at 2. rewrite !length_app. lia. }
      lia. }
    assert (Hf : fixText out = out).
    { unfold cleanText in Hid at 1. by rewrite Hs in Hid. }
    split; [rewrite <- Hs; apply trim_trimmed|].
    split; [rewrite <- Hs; apply strip_marker_free|].
    split; [rewrite <- Hs; apply strip_marker_free|].
    intros Ho. rewrite fixText_filter in Hf.
    rewrite (filter_absent _ _ Hu), (filter_absent _ _ Hp) in Hf.
    pose proof (crlfToLf_shrinks _ _ (le_n _) Ho) as Hl.
    rewrite Hf in Hl. lia.
  - intros (Ht & Hh & Hf & Hno). unfold cleanText at 1.
    rewrite (strip_fixed _ Ht Hh Hf Hno). by apply fixText_fixed.
Qed.

(** C9 (amended): cleaning the cleaned text gives the cleaned text again
    exactly when the cleaned text neither starts nor ends with white space,
    holds no start marker followed by an asterisk, no end marker and no
    CR LF pair; so it does whenever the stripped text is without underscore,
    plus sign and carriage return. *)
Theorem cleanText_idempotent_when_settled (text : list Z) :
  (cleanText (cleanText text) = cleanText text <->
   trimmed (cleanText text) /\
   frontFree headerTail (cleanText text) /\
   frontFree footerCore (cleanText text) /\
   ~ occurs [CR; LF] (cleanText text)) /\
  (plainText (stripGutenbergBoilerplate text) ->
   cleanText (cleanText text) = cleanText text).
Proof.
  split; [apply cleanText_fixed_iff|].
  intros Hp. apply cleanText_fixed_iff.
  unfold cleanText. rewrite (fixText_plain _ Hp).
  split; [apply trim_trimmed|].
  split; [apply strip_marker_free|]. split; [apply strip_marker_free|].
  intros (pre & post & E).
  apply plainText_not_elem in Hp as (_ & _ & Hcr). apply Hcr.
  rewrite E. apply elem_of_app. right. left.
Qed.

(** A way to check that a literal does not occur, and that a text is
    trimmed, by evaluation. *)
Lemma not_occurs_check lit text : occursb lit text = false -> ~ occurs lit text.
Proof. intros Hb Ho. apply occurs_occursb in Ho. congruence. Qed.

Lemma trimmed_check s : trim s = s -> trimmed s.
Proof. intros <-. apply trim_trimmed. Qed.

Lemma cleanText_idempotent_when_settled_witness :
  cleanText Sample.dosText
    = js "A fine seed  soil." ++ [LF] ++ js "Second line." ++ [LF; LF]
      ++ js "Last paragraph." /\
  cleanText (cleanText Sample.dosText) = cleanText Sample.dosText /\
  ~ occurs [CR; LF] (cleanText (js "a_b" ++ [CR; LF] ++ js "c+d")) /\
  cleanText (cleanText Sample.bookText) = cleanText Sample.bookText.
Proof.
  split; [vm_compute; reflexivity|]. split; [|split].
  - apply (proj2 (proj1 (cleanText_idempotent_when_settled Sample.dosText))).
    split; [apply trimmed_check; vm_compute; reflexivity|].
    split; [apply matchesNowhere_frontFree; vm_compute; reflexivity|].
    split; [apply matchesNowhere_frontFree; vm_compute; reflexivity|].
    apply not_occurs_check. vm_compute. reflexivity.
  - apply (proj1 (proj1 (cleanText_idempotent_when_settled
                           (js "a_b" ++ [CR; LF] ++ js "c+d")))).
    vm_compute. reflexivity.
  - apply (proj2 (cleanText_idempotent_when_settled Sample.bookText)).
    apply plainText_check. vm_compute. reflexivity.
Defined.

(** C9 as stated fails: the trimming comes before the underscores are
    removed, so the space that follows a leading underscore survives the
    first cleaning and is trimmed by the second. *)
Lemma cleanText_not_idempotent :
  cleanText (cleanText (js "_ a")) <> cleanText (js "_ a").
Proof. vm_compute. discriminate. Qed.

(** The same with a plus sign, and with a carriage return before a CR LF
    pair, of which one pass removes only one. *)
Example cleanText_plus : cleanText (cleanText (js "+ a")) <> cleanText (js "+ a").
Proof. vm_compute. discriminate. Qed.

Example cleanText_carriage_returns :
  cleanText (cleanText (js "a" ++ [CR; CR; LF] ++ js "b"))
    <> cleanText (js "a" ++ [CR; CR; LF] ++ js "b").
Proof. vm_compute. discriminate. Qed.

(** ** Declared names *)

Lemma lineHead_no_terminator s :
  Forall (fun c => isLineTerminator c = false) (lineHead s).
Proof.
  induction s as [|c s IH]; cbn [lineHead]; [done|].
  destruct (isLineTerminator c) eqn:E; [done|]. by apply Forall_cons.
Qed.

Lemma lineRest_cases s :
  lineRest s = [] \/
  exists c rest', lineRest s = c :: rest' /\ isLineTerminator c = true.
Proof.
  induction s as [|c s IH]; cbn [lineRest]; [by left|].
  destruct (isLineTerminator c) eqn:E; [right; eauto|done].
Qed.

(** What is read is the fallback of a text without the label, and otherwise
    the lower-cased rest of the line after the first label. *)
Lemma readDeclaration_cases label fallback text :
  (~ occurs label text /\ readDeclaration label fallback text = fallback) \/
  (exists v, declares label text v /\
             readDeclaration label fallback text = toLowerCase v).
Proof.
  unfold readDeclaration, exec.
  destruct (execFrom _ _ _ text) as [[[i rest] caps]|] eqn:E.
  - right. apply execFrom_inv in E as (pre & s1 & -> & _ & Hm & Hmin).
    rewrite declaration_matchAt in Hm.
    destruct (startsWith label s1) eqn:Es; [|done].
    injection Hm as <- <-. apply startsWith_inv in Es.
    set (d := drop (length label) s1) in *.
    exists (lineHead d). split; [|reflexivity].
    exists pre, (lineRest d). split; [|split; [|split]].
    + rewrite Es at 1. by rewrite <- line_split.
    + intros pre' post' E'.
      destruct (Nat.le_gt_cases (length pre) (length pre')) as [|Hlt]; [done|].
      exfalso.
      assert (Hn : matchAt (length (pre ++ s1)) (declarationRegex label)
                     (label ++ post') = None).
      { apply Hmin; [by exists pre'|].
        apply (f_equal length) in E'. rewrite !length_app in E'.
        rewrite length_app. lia. }
      by rewrite declaration_matchAt, startsWith_app in Hn.
    + apply lineHead_no_terminator.
    + apply lineRest_cases.
  - left. split; [|done]. intros (pre & post & ->).
    pose proof (execFrom_None_inv _ _ _ _ E (label ++ post)) as Hn.
    rewrite declaration_matchAt, startsWith_app in Hn.
    discriminate Hn. by exists pre.
Qed.

(** X11: whatever the text, [getBookEncoding] and [getBookLanguage] return
    either their default, and then the text does not hold the label, or the
    lower-cased rest of the line that follows the first label in the text;
    there is no third case. *)
Theorem declaration_read_or_default (text : list Z) :
  ((~ occurs (js "Character set encoding: ") text /\
    getBookEncoding text = js "ascii") \/
   (exists v, declares (js "Character set encoding: ") text v /\
              getBookEncoding text = toLowerCase v)) /\
  ((~ occurs (js "Language: ") text /\ getBookLanguage text = js "english") \/
   (exists v, declares (js "Language: ") text v /\
              getBookLanguage text = toLowerCase v)).
Proof.
  split.
  - exact (readDeclaration_cases (js "Character set encoding: ") (js "ascii") text).
  - exact (readDeclaration_cases (js "Language: ") (js "english") text).
Qed.

(** ** Finding the repository and the file *)

Lemma rmatch_star_leave {R} n0 greedy r s caps
      (k : list Z -> captures -> option R) :
  is_Some (k s caps) -> is_Some (rmatch n0 (RStar greedy r) s caps k).
Proof.
  intros Hk. rewrite rmatch_star_step. cbn zeta.
  apply starStep_is_Some. by right.
Qed.

Lemma execFrom_is_Some n0 r s s' i :
  s' `suffix_of` s -> is_Some (matchAt n0 r s') -> is_Some (execFrom n0 r i s).
Proof.
  intros Hs Hm. destruct (execFrom n0 r i s) eqn:E; [done|].
  rewrite (execFrom_None_inv _ _ _ _ E s' Hs) in Hm. by destruct Hm.
Qed.

Lemma repoRegex_matches id name :
  is_Some (exec (repoRegex id) name) <->
  (js "_" ++ numToString id) `suffix_of` name.
Proof.
  set (lit := js "_" ++ numToString id).
  assert (Hshape : forall n0 s,
             matchAt n0 (repoRegex id) s =
             rmatch n0 (RStar true (RChar CDot)) s [] (fun s' c' =>
               rmatch n0 (RLit lit) s' c' (fun s'' c'' =>
                 rmatch n0 (REol false) s'' c'' matched))) by reflexivity.
  split.
  - intros [[[i rest] caps] E]. unfold exec in E.
    apply execFrom_inv in E as (pre & s1 & -> & _ & Hm & _).
    rewrite Hshape in Hm. apply rmatch_inv in Hm as (s2 & c2 & Hs2 & Hm).
    rewrite rmatch_RLit in Hm. destruct (startsWith lit s2) eqn:Es; [|done].
    apply startsWith_inv in Es.
    destruct (drop (length lit) s2) as [|x t]; [|done].
    rewrite app_nil_r in Es. subst s2.
    etrans; [exact Hs2|]. by apply suffix_app_r.
  - intros Hs. unfold exec. apply (execFrom_is_Some _ _ _ lit); [done|].
    rewrite Hshape. apply rmatch_star_leave.
    rewrite rmatch_RLit.
    rewrite <- (app_nil_r lit) at 2. rewrite startsWith_app.
    rewrite <- (app_nil_r lit) at 2. rewrite drop_app_length. by eexists.
Qed.

Lemma snd_bind_ret {A B} (m : M A) (f : A -> M B) a :
  snd m = Ret a -> snd (bind m f) = snd (f a).
Proof.
  destruct m as [l [e|a']]; simpl; [done|]. intros [= ->].
  by destruct (f a).
Qed.

Lemma getRateTimeout_present now h :
  exists t, snd (getRateTimeout now (Some h)) = Ret t.
Proof.
  unfold getRateTimeout. destruct (x_ratelimit_remaining h <? 1); by eexists.
Qed.

Section CorpusFurther.
Context `{Runtime}.
Variable github : GitHub.

(** X12: a repository is taken for book [id] exactly when its name ends in
    an underscore followed by the identifier; among the items of the search
    the first such repository is used, the ones before it are passed over. *)
Theorem repository_is_first_with_suffix (id : option Z) before repo after h now :
  search_repos github (js "_" ++ numToString id ++ js "+user:GITenberg")
    = Reply (before ++ repo :: after) (Some h) now ->
  Forall (fun r => ~ (js "_" ++ numToString id) `suffix_of` repo_name r) before ->
  (js "_" ++ numToString id) `suffix_of` repo_name repo ->
  snd (getGutenbergBook github id)
    = snd (getGutenbergBookFromRepo github (repo_full_name repo) id).
Proof.
  intros Es Hbefore Hrepo. unfold getGutenbergBook. rewrite Es.
  destruct (getRateTimeout_present now h) as [t Ht].
  rewrite (snd_bind_ret _ _ t Ht).
  assert (Hfind : forall l,
             Forall (fun r => ~ (js "_" ++ numToString id) `suffix_of` repo_name r) l ->
             find (fun r => bool_decide (is_Some (exec (repoRegex id) (repo_name r))))
                  (l ++ repo :: after) = Some repo).
  { induction 1 as [|r l Hr _ IH]; cbn [app find].
    - rewrite bool_decide_eq_true_2; [done|]. by apply repoRegex_matches.
    - rewrite bool_decide_eq_false_2; [done|]. by rewrite repoRegex_matches. }
  by rewrite Hfind.
Qed.

(** X13: the file of book [id] is looked for under [id.txt], then [id-8.txt],
    then [id-0.txt]: the first of the three names that the tree holds decides,
    whatever other files are there. *)
Theorem file_names_in_order (repoName : list Z) (id : option Z) tree h now file :
  repo_tree github repoName (js "master") = Reply tree (Some h) now ->
  findFile tree (numToString id ++ js ".txt") = Some file \/
  (findFile tree (numToString id ++ js ".txt") = None /\
   findFile tree (numToString id ++ js "-8.txt") = Some file) \/
  (findFile tree (numToString id ++ js ".txt") = None /\
   findFile tree (numToString id ++ js "-8.txt") = None /\
   findFile tree (numToString id ++ js "-0.txt") = Some file) ->
  snd (getGutenbergBookFromRepo github repoName id)
    = snd (getGutenbergBookFromBlob github repoName (file_sha file) id).
Proof.
  intros Et Hfile. unfold getGutenbergBookFromRepo. rewrite Et.
  destruct (getRateTimeout_present now h) as [t Ht].
  destruct Hfile as [E1|[[E1 E2]|(E1 & E2 & E3)]];
    rewrite ?E1, ?E2, ?E3; by rewrite (snd_bind_ret _ _ t Ht).
Qed.

(** X14: the order of the checks.  A tree without any of the three file
    names is answered with the book-not-found error before the headers are
    looked at, so even without headers; a search or a blob without headers
    throws before the repository or the language is looked at; and an error
    of the client is handed on before anything else. *)
Theorem checks_in_order (repoName sha : list Z) (id : option Z) :
  (forall tree headers now,
      repo_tree github repoName (js "master") = Reply tree headers now ->
      findFile tree (numToString id ++ js ".txt") = None ->
      findFile tree (numToString id ++ js "-8.txt") = None ->
      findFile tree (numToString id ++ js "-0.txt") = None ->
      getGutenbergBookFromRepo github repoName id
        = ([], Ret (inl (BookNotFoundError id)))) /\
  (forall items now,
      search_repos github (js "_" ++ numToString id ++ js "+user:GITenberg")
        = Reply items None now ->
      getGutenbergBook github id = ([], Thrown RateLimitError)) /\
  (forall data now,
      repo_blob github repoName sha = Reply data None now ->
      getGutenbergBookFromBlob github repoName sha id
        = ([], Thrown RateLimitError)) /\
  (forall err,
      search_repos github (js "_" ++ numToString id ++ js "+user:GITenberg")
        = Failure err ->
      getGutenbergBook github id = ([], Ret (inl (ExternalError err)))).
Proof.
  split; [|split; [|split]].
  - intros tree headers now Et E1 E2 E3.
    unfold getGutenbergBookFromRepo. by rewrite Et, E1, E2, E3.
  - intros items now Es. unfold getGutenbergBook. by rewrite Es.
  - intros data now Eb. unfold getGutenbergBookFromBlob. by rewrite Eb.
  - intros err Es. unfold getGutenbergBook. by rewrite Es.
Qed.

Lemma bind_inv_ret {A B} (m : M A) (f : A -> M B) l b :
  bind m f = (l, Ret b) ->
  exists l1 a l2, m = (l1, Ret a) /\ f a = (l2, Ret b) /\ l = l1 ++ l2.
Proof.
  destruct m as [l1 [e|a]]; cbn [bind]; [done|].
  destruct (f a) as [l2 r] eqn:E. intros [= <- ->]. eauto 6.
Qed.

Lemma bind_inv {A B} (m : M A) (f : A -> M B) l r :
  bind m f = (l, r) ->
  (exists e, m = (l, Thrown e) /\ r = Thrown e) \/
  (exists l1 a l2, m = (l1, Ret a) /\ f a = (l2, r) /\ l = l1 ++ l2).
Proof.
  destruct m as [l1 [e|a]]; cbn [bind].
  - intros [= <- <-]. left. eauto.
  - destruct (f a) as [l2 r2] eqn:E. intros [= <- <-]. right. eauto 6.
Qed.

Lemma getGutenbergBookFromBlob_success repo sha id l text :
  getGutenbergBookFromBlob github repo sha id = (l, Ret (inr text)) ->
  exists data h now decoded,
    repo_blob github repo sha = Reply data (Some h) now /\
    let fullTextBuffer := newBuffer (blob_content data) (blob_encoding data) in
    let fullText := bufferToString fullTextBuffer in
    getBookLanguage fullText = js "english" /\
    (bufferToStringAs (getBookEncoding fullText) fullTextBuffer = Some decoded \/
     (bufferToStringAs (getBookEncoding fullText) fullTextBuffer = None /\
      iconvConvert (getBookEncoding fullText) fullTextBuffer = Some decoded)) /\
    text = cleanText decoded.
Proof.
  unfold getGutenbergBookFromBlob.
  destruct (repo_blob github repo sha) as [err|data headers now] eqn:Eb; [done|].
  intros Hb. apply bind_inv_ret in Hb as (l1 & t & l2 & Ht & Hb & _).
  apply getRateTimeout_inv in Ht as [(_ & _ & [=])|(h & t' & -> & _)].
  unfold str_eqb in Hb.
  destruct (bool_decide_reflect
              (getBookLanguage
                 (bufferToString
                    (newBuffer (blob_content data) (blob_encoding data)))
               = js "english")) as [El|]; cbn [negb] in Hb; [|done].
  exists data, h, now.
  destruct (bufferToStringAs _ _) as [decoded|] eqn:E1.
  - injection Hb as _ <-. exists decoded. cbv zeta.
    split; [done|]. split; [done|]. split; [by left|done].
  - destruct (iconvConvert _ _) as [decoded|] eqn:E2; [|done].
    injection Hb as _ <-. exists decoded. cbv zeta.
    split; [done|]. split; [done|]. split; [by right|done].
Qed.

Lemma getGutenbergBookFromRepo_success repoName id l text :
  getGutenbergBookFromRepo github repoName id = (l, Ret (inr text)) ->
  exists sha l', getGutenbergBookFromBlob github repoName sha id
                   = (l', Ret (inr text)).
Proof.
  unfold getGutenbergBookFromRepo.
  destruct (repo_tree github repoName (js "master")) as [err|tree headers now];
    [done|].
  match goal with |- context [match ?x with Some file => _ | None => _ end] =>
    destruct x as [file|] end; [|done].
  intros Hb. apply bind_inv_ret in Hb as (l1 & t & l2 & _ & Hb & _). eauto.
Qed.

Lemma getGutenbergBook_success id l text :
  getGutenbergBook github id = (l, Ret (inr text)) ->
  exists repoName sha l', getGutenbergBookFromBlob github repoName sha id
                            = (l', Ret (inr text)).
Proof.
  unfold getGutenbergBook.
  destruct (search_repos github _) as [err|items headers now]; [done|].
  intros Hb. apply bind_inv_ret in Hb as (l1 & t & l2 & _ & Hb & _).
  destruct (find _ items) as [repo|]; [|done].
  apply getGutenbergBookFromRepo_success in Hb as (sha & l' & Hb). eauto.
Qed.

(** X15: a text that [getGutenbergBook] hands to the callback comes from a
    blob that was answered with headers, whose text declares english (or no
    language), decoded by [Buffer] or, when that throws, by iconv, and it is
    the cleaning of that decoded text; so it holds no underscore and no plus
    sign. *)
Theorem fetched_text_is_english_and_clean (id : option Z) l text :
  getGutenbergBook github id = (l, Ret (inr text)) ->
  (exists repoName sha data h now decoded,
    repo_blob github repoName sha = Reply data (Some h) now /\
    let fullTextBuffer := newBuffer (blob_content data) (blob_encoding data) in
    let fullText := bufferToString fullTextBuffer in
    getBookLanguage fullText = js "english" /\
    (bufferToStringAs (getBookEncoding fullText) fullTextBuffer = Some decoded \/
     (bufferToStringAs (getBookEncoding fullText) fullTextBuffer = None /\
      iconvConvert (getBookEncoding fullText) fullTextBuffer = Some decoded)) /\
    text = cleanText decoded) /\
  (underscore ∉ text) /\ (plus ∉ text).
Proof.
  intros Hg. apply getGutenbergBook_success in Hg as (repoName & sha & l' & Hb).
  apply getGutenbergBookFromBlob_success in Hb
    as (data & h & now & decoded & Eb & El & Hd & ->).
  split; [by exists repoName, sha, data, h, now, decoded|].
  assert (Hno : forall t, (underscore ∉ fixText t) /\ (plus ∉ fixText t)).
  { intros t. rewrite fixText_filter.
    split; intros Hin; apply (crlfToLf_elem _ _ _ (le_n _)) in Hin;
      rewrite !list_elem_of_filter in Hin; tauto. }
  apply Hno.
Qed.

Lemma getRateTimeout_journal now headers l r :
  getRateTimeout now headers = (l, r) ->
  (length l <= 1)%nat /\ Forall (fun e => exists t, e = LogWaiting t) l.
Proof.
  unfold getRateTimeout. destruct headers as [h|].
  - destruct (x_ratelimit_remaining h <? 1); intros [= <- <-]; simpl;
      split; try lia; repeat constructor. by eexists.
  - intros [= <- <-]. simpl. split; [lia|done].
Qed.

Lemma getGutenbergBookFromBlob_journal repo sha id l r :
  getGutenbergBookFromBlob github repo sha id = (l, r) ->
  (length l <= 1)%nat /\ Forall (fun e => exists t, e = LogWaiting t) l.
Proof.
  unfold getGutenbergBookFromBlob.
  destruct (repo_blob github repo sha) as [err|data headers now].
  { intros [= <- <-]. simpl. split; [lia|done]. }
  intros Hb. apply bind_inv in Hb as [(e & Ht & _)|(l1 & t & l2 & Ht & Hb & ->)].
  - by apply getRateTimeout_journal in Ht.
  - apply getRateTimeout_journal in Ht as [Hl Hw].
    assert (l2 = []) as ->; [|by rewrite app_nil_r].
    unfold ret in Hb. repeat case_match; by injection Hb as <- _.
Qed.

Lemma getGutenbergBookFromRepo_journal repoName id l r :
  getGutenbergBookFromRepo github repoName id = (l, r) ->
  (length l <= 2)%nat /\ Forall (fun e => exists t, e = LogWaiting t) l.
Proof.
  unfold getGutenbergBookFromRepo.
  destruct (repo_tree github repoName (js "master")) as [err|tree headers now].
  { intros [= <- <-]. simpl. split; [lia|done]. }
  match goal with |- context [match ?x with Some file => _ | None => _ end] =>
    destruct x as [file|] end.
  - intros Hb.
    apply bind_inv in Hb as [(e & Ht & _)|(l1 & t & l2 & Ht & Hb & ->)].
    + apply getRateTimeout_journal in Ht as [Hl Hw]. split; [lia|done].
    + apply getRateTimeout_journal in Ht as [Hl Hw].
      apply getGutenbergBookFromBlob_journal in Hb as [Hl2 Hw2].
      rewrite length_app. split; [lia|by apply Forall_app].
  - intros [= <- <-]. simpl. split; [lia|done].
Qed.

Lemma getGutenbergBook_journal (id : option Z) l r :
  getGutenbergBook github id = (l, r) ->
  (length l <= 3)%nat /\ Forall (fun e => exists t, e = LogWaiting t) l.
Proof.
  unfold getGutenbergBook.
  destruct (search_repos github _) as [err|items headers now].
  { intros [= <- <-]. simpl. split; [lia|done]. }
  intros Hb.
  apply bind_inv in Hb as [(e & Ht & _)|(l1 & t & l2 & Ht & Hb & ->)].
  - apply getRateTimeout_journal in Ht as [Hl Hw]. split; [lia|done].
  - apply getRateTimeout_journal in Ht as [Hl Hw].
    destruct (find _ items) as [repo|].
    + apply getGutenbergBookFromRepo_journal in Hb as [Hl2 Hw2].
      rewrite length_app. split; [lia|by apply Forall_app].
    + injection Hb as <- _. rewrite app_nil_r. split; [lia|done].
Qed.

(** X16: fetching one book writes at most three entries to the journal, one
    per answer of GitHub, and each of them is a wait. *)
Theorem fetch_journal_is_waits (id : option Z) l r :
  getGutenbergBook github id = (l, r) ->
  (length l <= 3)%nat /\ Forall (fun e => exists t, e = LogWaiting t) l.
Proof. apply getGutenbergBook_journal. Qed.
End CorpusFurther.

Lemma repository_is_first_with_suffix_witness :
  let seeds := {| repo_name := js "Seeds_52";
                  repo_full_name := js "GITenberg/Seeds_52" |} in
  Sample.shelf = take 2 Sample.shelf ++ seeds :: drop 3 Sample.shelf /\
  Forall (fun r => ~ js "_52" `suffix_of` repo_name r) (take 2 Sample.shelf) /\
  snd (@getGutenbergBook Sample.runtime Sample.crowded (Some 52))
  = snd (@getGutenbergBookFromRepo Sample.runtime Sample.crowded
           (js "GITenberg/Seeds_52") (Some 52)) /\
  snd (@getGutenbergBook Sample.runtime Sample.crowded (Some 52))
  = Ret (inr (cleanText Sample.bookText)).
Proof.
  intros seeds.
  assert (Hbefore : Forall (fun r => ~ (js "_" ++ numToString (Some 52))
                                        `suffix_of` repo_name r)
                           (take 2 Sample.shelf)).
  { repeat constructor; intros Hs;
      apply (repoRegex_matches (Some 52)) in Hs; destruct Hs as [x Hx];
      vm_compute in Hx; discriminate. }
  assert (Hthm := @repository_is_first_with_suffix Sample.runtime Sample.crowded
           (Some 52) (take 2 Sample.shelf) seeds (drop 3 Sample.shelf)
           {| x_ratelimit_remaining := 59; x_ratelimit_reset := 1700000000 |}
           1699999990000 eq_refl Hbefore
           (ex_intro _ (js "Seeds") eq_refl)).
  split; [reflexivity|]. split; [exact Hbefore|]. split; [exact Hthm|].
  rewrite Hthm. vm_compute. reflexivity.
Defined.

Lemma file_names_in_order_witness :
  snd (@getGutenbergBookFromRepo Sample.runtime
         (Sample.library "52-8.txt" Sample.bookText
                         Sample.quota Sample.quota Sample.quota)
         (js "GITenberg/Seeds_52") (Some 52))
  = snd (@getGutenbergBookFromBlob Sample.runtime
           (Sample.library "52-8.txt" Sample.bookText
                           Sample.quota Sample.quota Sample.quota)
           (js "GITenberg/Seeds_52")
           (file_sha {| file_path := js "52-8.txt"; file_sha := js "bb" |})
           (Some 52)).
Proof.
  apply (@file_names_in_order Sample.runtime _ (js "GITenberg/Seeds_52") (Some 52)
           [{| file_path := js "README.rst"; file_sha := js "aa" |};
            {| file_path := js "52-8.txt"; file_sha := js "bb" |}]
           {| x_ratelimit_remaining := 59; x_ratelimit_reset := 1700000000 |}
           1699999990000).
  - vm_compute. reflexivity.
  - right. left. split; vm_compute; reflexivity.
Defined.

Lemma checks_in_order_witness :
  @getGutenbergBookFromRepo Sample.runtime
     (Sample.library "52-1.txt" Sample.bookText Sample.quota None Sample.quota)
     (js "GITenberg/Seeds_52") (Some 52)
    = ([], Ret (inl (BookNotFoundError (Some 52)))) /\
  @getGutenbergBook Sample.runtime Sample.throttled (Some 7)
    = ([], Thrown RateLimitError) /\
  @getGutenbergBookFromBlob Sample.runtime
     (Sample.library "52.txt" Sample.frenchText Sample.quota Sample.quota None)
     (js "GITenberg/Seeds_52") (js "bb") (Some 52)
    = ([], Thrown RateLimitError) /\
  @getGutenbergBook Sample.runtime
     {| search_repos := fun _ => Failure (js "Forbidden");
        repo_tree := repo_tree Sample.github;
        repo_blob := repo_blob Sample.github |} (Some 52)
    = ([], Ret (inl (ExternalError (js "Forbidden")))).
Proof.
  split; [|split; [|split]]; cycle 3.
  { eapply (proj2 (proj2 (proj2 (@checks_in_order Sample.runtime _ [] []
                                   (Some 52))))).
    reflexivity. }
  - eapply (proj1 (@checks_in_order Sample.runtime _ _ (js "bb") (Some 52)));
      vm_compute; reflexivity.
  - eapply (proj1 (proj2 (@checks_in_order Sample.runtime _ [] [] (Some 7)))).
    vm_compute. reflexivity.
  - eapply (proj1 (proj2 (proj2 (@checks_in_order Sample.runtime _ _ _ (Some 52))))).
    vm_compute. reflexivity.
Defined.

Lemma fetched_text_is_english_and_clean_witness :
  (exists repoName sha data h now decoded,
    repo_blob Sample.github repoName sha = Reply data (Some h) now /\
    let fullTextBuffer :=
      @newBuffer Sample.runtime (blob_content data) (blob_encoding data) in
    let fullText := @bufferToString Sample.runtime fullTextBuffer in
    getBookLanguage fullText = js "english" /\
    (@bufferToStringAs Sample.runtime (getBookEncoding fullText) fullTextBuffer
       = Some decoded \/
     (@bufferToStringAs Sample.runtime (getBookEncoding fullText) fullTextBuffer
        = None /\
      @iconvConvert Sample.runtime (getBookEncoding fullText) fullTextBuffer
        = Some decoded)) /\
    cleanText Sample.bookText = cleanText decoded) /\
  (underscore ∉ cleanText Sample.bookText) /\ (plus ∉ cleanText Sample.bookText).
Proof.
  apply (@fetched_text_is_english_and_clean Sample.runtime Sample.github
           (Some 52) []).
  vm_compute. reflexivity.
Defined.

Lemma fetch_journal_is_waits_witness :
  let fetched := @getGutenbergBook Sample.runtime
                   (Sample.library "52.txt" Sample.bookText
                                   Sample.spent Sample.spent Sample.spent)
                   (Some 52) in
  (length (fst fetched) <= 3)%nat /\
  Forall (fun e => exists t, e = LogWaiting t) (fst fetched).
Proof.
  intros fetched.
  apply (@fetch_journal_is_waits Sample.runtime
           (Sample.library "52.txt" Sample.bookText
                           Sample.spent Sample.spent Sample.spent)
           (Some 52) (fst fetched) (snd fetched)).
  apply surjective_pairing.
Defined.

(** ** Paragraphs, further *)

Lemma splitLoop_cons n0 r cur c s :
  splitLoop n0 r O cur (c :: s) =
    match matchAt n0 r (c :: s) with
    | None => splitLoop n0 r O (c :: cur) s
    | Some (rest, _) =>
        match (length (c :: s) - length rest)%nat with
        | O =>
            match cur with
            | [] => splitLoop n0 r O [c] s
            | _ => rev cur :: splitLoop n0 r O [c] s
            end
        | S n => rev cur :: splitLoop n0 r n [] s
        end
    end.
Proof. reflexivity. Qed.

Lemma splitLoop_joined n0 : forall n s cur,
  (length s <= n)%nat ->
  joined (splitLoop n0 paragraphSeparator O cur s) (rev cur ++ s).
Proof.
  induction n as [|n IH]; intros s cur Hn.
  - destruct s; [|simpl in Hn; lia]. rewrite app_nil_r. apply joined_one.
  - destruct s as [|c s]; [rewrite app_nil_r; apply joined_one|].
    rewrite splitLoop_cons.
    destruct (matchAt n0 paragraphSeparator (c :: s)) as [[rest caps]|] eqn:E.
    + apply separator_matchAt_inv in E as (m & E & Hh).
      change (replicate (S (S m)) LF ++ rest)
        with (LF :: (replicate (S m) LF ++ rest)) in E.
      injection E as -> ->.
      replace (length (LF :: LF :: replicate m LF ++ rest) - length rest)%nat
        with (S (S m))
        by (cbn [length]; rewrite length_app, length_replicate; lia).
      change (LF :: replicate m LF ++ rest) with (replicate (S m) LF ++ rest).
      rewrite splitLoop_skip.
      change (LF :: replicate (S m) LF ++ rest)
        with (replicate (S (S m)) LF ++ rest).
      apply joined_more.
      apply (IH rest []). cbn [length] in Hn. rewrite length_app in Hn. lia.
    + replace (rev cur ++ c :: s) with (rev (c :: cur) ++ s)
        by (cbn [rev]; by rewrite <- app_assoc).
      apply IH. simpl in Hn. lia.
Qed.

(** X17: the split on blank lines loses nothing but the blank lines: the
    text is the paragraphs in order with runs of two or more newlines
    between them, and no paragraph contains a blank line. *)
Theorem split_joined (text : list Z) :
  joined (split paragraphSeparator text) text /\
  Forall (fun p => ~ occurs [LF; LF] p) (split paragraphSeparator text).
Proof.
  split; [|apply split_no_separator].
  destruct text as [|c text]; [apply joined_one|].
  apply (splitLoop_joined _ (length (c :: text)) (c :: text) []). done.
Qed.

Lemma splitLoop_no_match n0 r : forall s cur,
  (forall s', s' `suffix_of` s -> matchAt n0 r s' = None) ->
  splitLoop n0 r O cur s = [rev cur ++ s].
Proof.
  induction s as [|c s IH]; intros cur Hn.
  - by rewrite app_nil_r.
  - rewrite splitLoop_cons, Hn by done. rewrite IH.
    + cbn [rev]. by rewrite <- app_assoc.
    + intros s' Hs. apply Hn. by apply suffix_cons_r.
Qed.

Lemma split_single (text : list Z) :
  ~ occurs [LF; LF] text -> split paragraphSeparator text = [text].
Proof.
  intros Hno. destruct text as [|c text]; [done|].
  unfold split. rewrite splitLoop_no_match; [done|].
  intros s' [pre Es].
  destruct (matchAt _ paragraphSeparator s') as [[rest caps]|] eqn:E; [|done].
  exfalso. apply separator_matchAt_inv in E as (m & -> & _).
  apply Hno. exists pre, (replicate m LF ++ rest). by rewrite Es.
Qed.

(** X18: a text without blank line is one paragraph: every seed that is not
    negative selects the whole text. *)
Theorem getParagraph_without_blank_line (text : list Z) (seed : Z) :
  ~ occurs [LF; LF] text -> 0 <= seed ->
  getParagraph text seed = text ++ [LF; LF].
Proof.
  intros Hno Hseed. unfold getParagraph. rewrite (split_single _ Hno).
  cbn [length]. unfold jsRem. cbn [Z.of_nat Pos.of_succ_nat Z.eqb].
  rewrite Z.rem_1_r. reflexivity.
Qed.

Lemma getParagraph_without_blank_line_witness :
  getParagraph (js "one line") 7 = js "one line" ++ [LF; LF].
Proof.
  apply getParagraph_without_blank_line; [|lia].
  intros Ho. apply occurs_occursb in Ho. vm_compute in Ho. discriminate.
Defined.

(** X19: for a negative seed the remainder is not positive: a seed that the
    number of paragraphs does not divide selects no paragraph and the text of
    [undefined] is returned; one that it divides selects the first
    paragraph. *)
Theorem getParagraph_negative_seed (text : list Z) (seed : Z) :
  seed < 0 ->
  let paragraphs := split paragraphSeparator text in
  (seed mod Z.of_nat (length paragraphs) <> 0 ->
   getParagraph text seed = js "undefined" ++ [LF; LF]) /\
  (seed mod Z.of_nat (length paragraphs) = 0 ->
   exists p, paragraphs !! O = Some p /\ getParagraph text seed = p ++ [LF; LF]).
Proof.
  intros Hseed paragraphs.
  pose proof (split_paragraphs_nonempty text) as Hlen. fold paragraphs in Hlen.
  set (n := Z.of_nat (length paragraphs)).
  assert (Hn : 0 < n) by (unfold n; lia).
  assert (Hrem : jsRem seed n = Some (Z.rem seed n)).
  { unfold jsRem. destruct (Z.eqb_spec n 0); [lia|reflexivity]. }
  assert (Hsign : Z.rem seed n <= 0).
  { pose proof (Z.rem_nonpos seed n). lia. }
  assert (Hzero : Z.rem seed n = 0 <-> seed mod n = 0).
  { rewrite Z.rem_divide, Z.mod_divide by lia. done. }
  unfold getParagraph. fold paragraphs. fold n. rewrite Hrem. split.
  - intros Hmod. unfold elementText.
    destruct (Z.ltb_spec (Z.rem seed n) 0); [done|].
    exfalso. apply Hmod, Hzero. lia.
  - intros Hmod. apply Hzero in Hmod. rewrite Hmod.
    destruct paragraphs as [|p ps] eqn:E; [simpl in Hlen; lia|].
    exists p. split; [done|]. reflexivity.
Qed.

Lemma getParagraph_negative_seed_witness :
  let paragraphs := split paragraphSeparator Sample.bookText in
  (-1 mod Z.of_nat (length paragraphs) <> 0 ->
   getParagraph Sample.bookText (-1) = js "undefined" ++ [LF; LF]) /\
  (-1 mod Z.of_nat (length paragraphs) = 0 ->
   exists p, paragraphs !! O = Some p /\
             getParagraph Sample.bookText (-1) = p ++ [LF; LF]).
Proof. apply getParagraph_negative_seed. lia. Defined.

(** X20: the selection wraps around: adding a multiple of the number of
    paragraphs to a seed that is not negative selects the same paragraph. *)
Theorem getParagraph_wraps (text : list Z) (seed k : Z) :
  0 <= seed -> 0 <= k ->
  getParagraph text
    (seed + k * Z.of_nat (length (split paragraphSeparator text)))
  = getParagraph text seed.
Proof.
  intros Hseed Hk.
  pose proof (split_paragraphs_nonempty text) as Hlen.
  unfold getParagraph, jsRem.
  set (n := Z.of_nat (length (split paragraphSeparator text))) in *.
  destruct (Z.eqb_spec n 0); [done|].
  rewrite !Z.rem_mod_nonneg by nia. by rewrite Z_mod_plus_full.
Qed.

Lemma getParagraph_wraps_witness :
  getParagraph Sample.bookText
    (1 + 5 * Z.of_nat (length (split paragraphSeparator Sample.bookText)))
  = getParagraph Sample.bookText 1.
Proof. apply getParagraph_wraps; lia. Defined.

(** ** The engine, further *)

Section EngineFurther.
Context `{Runtime}.
Variable cfg : Config.

Lemma addParagraph_grows github st :
  book st `prefix_of` book (outcomeState (addParagraph cfg github st)) /\
  journal st `prefix_of` journal (outcomeState (addParagraph cfg github st)).
Proof.
  destruct (addParagraph cfg github st) as [s|e s|s|s] eqn:E; cbn [outcomeState].
  - apply addParagraph_finished in E as [-> _]. done.
  - apply addParagraph_crashed in E as (l & _ & ->). cbn.
    split; [done|by apply prefix_app_r].
  - apply addParagraph_retried in E as (_ & _ & l & ->). cbn.
    split; by apply prefix_app_r.
  - apply addParagraph_appended in E as (_ & _ & l & result & _ & ->). cbn.
    split; by apply prefix_app_r.
Qed.

(** X21: nothing that was written is taken back: after a call of
    [addParagraph], and after any run, the book and the journal start with
    what they held before. *)
Theorem book_and_journal_grow :
  (forall github st,
      book st `prefix_of` book (outcomeState (addParagraph cfg github st)) /\
      journal st `prefix_of` journal (outcomeState (addParagraph cfg github st))) /\
  (forall n st st',
      run cfg n st st' ->
      book st `prefix_of` book st' /\ journal st `prefix_of` journal st').
Proof.
  split; [apply addParagraph_grows|].
  induction 1 as [st|github n st st1 st2 E _ IH|github n st st1 st2 E _ IH];
    [done|..];
    pose proof (addParagraph_grows github st) as [Hb Hj];
    rewrite E in Hb, Hj; cbn [outcomeState] in Hb, Hj;
    destruct IH as [IHb IHj]; split; by etrans.
Qed.

Lemma addParagraph_appended_full github st st' :
  addParagraph cfg github st = Appended st' ->
  1 <= count st /\ visited (cache st) (index st) = false /\
  excluded cfg (clampBookId cfg (index st)) = false /\
  exists l result,
    getGutenbergBook github (clampBookId cfg (index st)) = (l, Ret (inr result)) /\
    st' = {| book := book st ++ getParagraph result (index st);
             index := getNextIndex (getParagraph result (index st));
             count := count st - 1;
             cache := <[index st := true]> (cache st);
             journal := journal st ++ l ++
                          [LogTranscribing (clampBookId cfg (index st))] |}.
Proof.
  unfold addParagraph.
  destruct (Z.ltb_spec (count st) 1); [discriminate|].
  destruct (visited (cache st) (index st)) eqn:Ev; [discriminate|].
  destruct (excluded cfg _) eqn:Ex; [discriminate|].
  destruct (getGutenbergBook github _) as [l [e|[err|result]]] eqn:Eg;
    intros; simplify_eq.
  split; [lia|]. split; [done|]. split; [done|]. eauto.
Qed.

(** X22: the cache counts the paragraphs: from a cache that holds only
    [true], a run that appended [n] paragraphs leaves a cache with [n] more
    seeds, all [true]. *)
Theorem cache_counts_paragraphs n st st' :
  map_Forall (fun _ v => v = true) (cache st) ->
  run cfg n st st' ->
  size (cache st') = (size (cache st) + n)%nat /\
  map_Forall (fun _ v => v = true) (cache st').
Proof.
  intros Hall Hrun. revert Hall.
  induction Hrun as [st|github n st st1 st2 E _ IH|github n st st1 st2 E _ IH];
    intros Hall.
  - split; [lia|done].
  - apply addParagraph_retried in E as (_ & _ & l & ->). by apply IH.
  - apply addParagraph_appended in E as (_ & Hv & l & result & _ & ->).
    assert (Hnone : cache st !! index st = None).
    { destruct (cache st !! index st) as [v|] eqn:Ec; [|done].
      apply Hall in Ec as Ev. subst v.
      unfold visited in Hv. by rewrite Ec, bool_decide_eq_true_2 in Hv. }
    destruct IH as [IHs IHa].
    { cbn. by apply map_Forall_insert_2. }
    cbn in IHs. rewrite map_size_insert_None in IHs by done.
    split; [lia|done].
Qed.

(** X23: a run never appends more paragraphs than [count] asked for, and a
    run after which [addParagraph] calls back has appended exactly that many
    (none when [count] was below 1). *)
Theorem run_appends_what_count_asks n st st' :
  run cfg n st st' ->
  Z.of_nat n <= Z.max 0 (count st) /\
  forall github st'',
    addParagraph cfg github st' = Finished st'' ->
    Z.of_nat n = Z.max 0 (count st).
Proof.
  intros Hrun.
  assert (Hle : Z.of_nat n <= Z.max 0 (count st)).
  { induction Hrun as [st|github n st st1 st2 E _ IH|github n st st1 st2 E _ IH].
    - lia.
    - apply addParagraph_retried in E as (_ & _ & l & ->). cbn in IH. lia.
    - apply addParagraph_appended in E as (Hc & _ & l & result & _ & ->).
      cbn in IH. lia. }
  split; [done|]. intros github st'' E.
  apply addParagraph_finished in E as [_ Hlt].
  apply run_count in Hrun. lia.
Qed.

(** X24: an appended paragraph is what [getParagraph] returned, a text
    followed by two newlines, and the next seed is the index of exactly what
    was appended: the index of that text plus 20. *)
Theorem appended_text_gives_next_seed github st st' :
  addParagraph cfg github st = Appended st' ->
  exists p, book st' = book st ++ p ++ [LF; LF] /\
            index st' = getNextIndex (p ++ [LF; LF]) /\
            index st' = getNextIndex p + 20.
Proof.
  intros E. apply addParagraph_appended in E as (_ & _ & l & result & _ & ->).
  cbn [book index]. unfold getParagraph.
  eexists. split; [reflexivity|]. split; [reflexivity|].
  rewrite !getNextIndex_codeSum, codeSum_app. reflexivity.
Qed.

(** X25: a book is never transcribed while it is excluded or its seed
    visited: a call that appends a paragraph started from a seed whose book
    is not excluded, and it ends the journal with the entry of that book,
    after waits only. *)
Theorem appended_book_is_allowed github st st' :
  addParagraph cfg github st = Appended st' ->
  excluded cfg (clampBookId cfg (index st)) = false /\
  visited (cache st) (index st) = false /\
  exists l, Forall (fun e => exists t, e = LogWaiting t) l /\
            journal st' = journal st ++ l ++
                            [LogTranscribing (clampBookId cfg (index st))].
Proof.
  intros E.
  apply addParagraph_appended_full in E as (_ & Hv & Hx & l & result & Hg & ->).
  split; [done|]. split; [done|]. exists l.
  apply getGutenbergBook_journal in Hg as [_ Hw]. done.
Qed.

(** X26: the retry can go on for ever.  When [maxId] divides 10, a seed that
    is not negative and whose book is excluded is retried with a seed of the
    same book: from there no run appends a paragraph, and every call of
    [addParagraph] retries, whatever GitHub answers. *)
Theorem excluded_seed_is_retried_for_ever n st st' :
  0 < maxId cfg -> 10 mod maxId cfg = 0 ->
  0 <= index st -> 1 <= count st ->
  excluded cfg (clampBookId cfg (index st)) = true ->
  run cfg n st st' ->
  n = O /\ count st' = count st /\
  clampBookId cfg (index st') = clampBookId cfg (index st) /\
  forall github, exists st'', addParagraph cfg github st' = Retried st''.
Proof.
  intros Hmax Hdiv Hidx Hcount Hex Hrun.
  assert (Hstep : forall github s, 1 <= count s ->
             excluded cfg (clampBookId cfg (index s)) = true ->
             exists l, addParagraph cfg github s
                       = Retried (trySimilarParagraph (logged s l))).
  { intros github s Hc Hx. apply addParagraph_retries; [done|].
    right. by left. }
  assert (Hclamp : forall i, 0 <= i ->
             clampBookId cfg (i + getNextIndex extraText) = clampBookId cfg i).
  { intros i Hi. unfold clampBookId, jsRem.
    destruct (Z.eqb_spec (maxId cfg) 0); [lia|].
    change (getNextIndex extraText) with 10.
    rewrite !Z.rem_mod_nonneg by lia.
    rewrite Z.add_mod, Hdiv, Z.add_0_r, Z.mod_mod by lia. done. }
  induction Hrun as [st|github n st st1 st2 E _ IH|github n st st1 st2 E _ IH].
  - split; [done|]. split; [done|]. split; [done|].
    intros github. destruct (Hstep github st Hcount Hex) as [l E]. eauto.
  - destruct (Hstep github st Hcount Hex) as [l E']. rewrite E' in E.
    injection E as <-.
    change (index (trySimilarParagraph (logged st l)))
      with (index st + getNextIndex extraText) in IH.
    change (count (trySimilarParagraph (logged st l))) with (count st) in IH.
    rewrite Hclamp in IH by done.
    apply IH; [|done|done].
    change (getNextIndex extraText) with 10. lia.
  - destruct (Hstep github st Hcount Hex) as [l E']. rewrite E' in E. done.
Qed.
End EngineFurther.

Lemma book_and_journal_grow_witness :
  book (Sample.state 52) `prefix_of`
    book (outcomeState (@addParagraph Sample.runtime Sample.cfg Sample.github
                          (Sample.state 52))) /\
  journal (Sample.state 52) `prefix_of`
    journal (outcomeState (@addParagraph Sample.runtime Sample.cfg Sample.github
                             (Sample.state 52))).
Proof.
  apply (proj2 (@book_and_journal_grow Sample.runtime Sample.cfg) 1%nat).
  eapply (run_append _ Sample.github); [reflexivity|apply run_here].
Defined.

Lemma cache_counts_paragraphs_witness :
  size (cache (outcomeState (@addParagraph Sample.runtime Sample.cfg Sample.github
                               (Sample.state 52))))
    = (size (cache (Sample.state 52)) + 1)%nat /\
  map_Forall (fun _ v => v = true)
    (cache (outcomeState (@addParagraph Sample.runtime Sample.cfg Sample.github
                            (Sample.state 52)))).
Proof.
  apply (@cache_counts_paragraphs Sample.runtime Sample.cfg 1%nat (Sample.state 52)).
  - apply map_Forall_empty.
  - eapply (run_append _ Sample.github); [reflexivity|apply run_here].
Defined.

Lemma run_appends_what_count_asks_witness :
  let step := @addParagraph Sample.runtime Sample.cfg in
  let st1 := outcomeState (step Sample.github Sample.lastState) in
  step Sample.github Sample.lastState = Appended st1 /\
  step Sample.throttled st1 = Finished st1 /\
  Z.of_nat 1 <= Z.max 0 (count Sample.lastState) /\
  Z.of_nat 1 = Z.max 0 (count Sample.lastState) /\
  Z.of_nat 1 <= Z.max 0 (count (Sample.state 52)).
Proof.
  intros step st1.
  assert (Hstep : step Sample.github Sample.lastState = Appended st1)
    by (vm_compute; reflexivity).
  assert (Hdone : step Sample.throttled st1 = Finished st1)
    by (vm_compute; reflexivity).
  assert (Hrun : @run Sample.runtime Sample.cfg 1 Sample.lastState st1).
  { eapply (run_append _ Sample.github); [exact Hstep|apply run_here]. }
  destruct (@run_appends_what_count_asks Sample.runtime Sample.cfg
              1%nat Sample.lastState st1 Hrun) as [Hle Hall].
  split; [exact Hstep|]. split; [exact Hdone|]. split; [exact Hle|].
  split; [exact (Hall Sample.throttled st1 Hdone)|].
  apply (@run_appends_what_count_asks Sample.runtime Sample.cfg 1%nat
           (Sample.state 52)
           (outcomeState (step Sample.github (Sample.state 52)))).
  eapply (run_append _ Sample.github); [vm_compute; reflexivity|apply run_here].
Defined.

Lemma appended_text_gives_next_seed_witness :
  exists p,
    book (outcomeState (@addParagraph Sample.runtime Sample.cfg Sample.github
                          (Sample.state 52)))
      = book (Sample.state 52) ++ p ++ [LF; LF] /\
    index (outcomeState (@addParagraph Sample.runtime Sample.cfg Sample.github
                           (Sample.state 52)))
      = getNextIndex (p ++ [LF; LF]) /\
    index (outcomeState (@addParagraph Sample.runtime Sample.cfg Sample.github
                           (Sample.state 52)))
      = getNextIndex p + 20.
Proof.
  apply (@appended_text_gives_next_seed Sample.runtime Sample.cfg Sample.github).
  reflexivity.
Defined.

Lemma appended_book_is_allowed_witness :
  excluded Sample.cfg (clampBookId Sample.cfg (index (Sample.state 52))) = false /\
  visited (cache (Sample.state 52)) (index (Sample.state 52)) = false /\
  exists l, Forall (fun e => exists t, e = LogWaiting t) l /\
            journal (outcomeState (@addParagraph Sample.runtime Sample.cfg
                                     Sample.github (Sample.state 52)))
              = journal (Sample.state 52) ++ l ++
                  [LogTranscribing (clampBookId Sample.cfg (index (Sample.state 52)))].
Proof.
  apply (@appended_book_is_allowed Sample.runtime Sample.cfg Sample.github).
  reflexivity.
Defined.

Lemma excluded_seed_is_retried_for_ever_witness :
  let cfg := {| maxId := 10; excludes := [2]; startId := 2; paragraphLimit := 3 |} in
  let forbidden := [LogForbidden (Some 2)] in
  let st1 := trySimilarParagraph (logged (@createBook cfg) forbidden) in
  let st2 := trySimilarParagraph (logged st1 forbidden) in
  (index st2 = 22 /\ book st2 = [LF; LF] /\ journal st2 = forbidden ++ forbidden) /\
  O = O /\ count st2 = count (@createBook cfg) /\
  clampBookId cfg (index st2) = clampBookId cfg (index (@createBook cfg)) /\
  forall github, exists st'',
      @addParagraph Sample.runtime cfg github st2 = Retried st''.
Proof.
  intros cfg forbidden st1 st2. split; [repeat split|].
  apply (@excluded_seed_is_retried_for_ever Sample.runtime cfg O
           (@createBook cfg) st2).
  - simpl. lia.
  - reflexivity.
  - simpl. lia.
  - simpl. lia.
  - reflexivity.
  - apply (run_retry _ Sample.github O (@createBook cfg) st1); [reflexivity|].
    apply (run_retry _ Sample.throttled O st1 st2); [reflexivity|].
    apply run_here.
Defined.

(** ** Texts without boilerplate *)

(** X27: a text that holds neither marker and no carriage return is only
    trimmed by [stripGutenbergBoilerplate]. *)
Theorem strip_without_boilerplate (text : list Z) :
  frontFree headerTail text -> frontFree footerCore text -> CR ∉ text ->
  stripGutenbergBoilerplate text = trim text.
Proof.
  intros Hfree1 Hfree2 Hcr. unfold stripGutenbergBoilerplate.
  rewrite (header_noop _ Hfree1), (footer_noop _ Hfree2).
  by rewrite (replaceFirst_requires CR); [|reflexivity|].
Qed.

Lemma strip_without_boilerplate_witness :
  stripGutenbergBoilerplate (js "  The start of the project.  ")
    = trim (js "  The start of the project.  ").
Proof.
  apply strip_without_boilerplate.
  - apply matchesNowhere_frontFree. vm_compute. reflexivity.
  - apply matchesNowhere_frontFree. vm_compute. reflexivity.
  - apply not_elem_check. vm_compute. reflexivity.
Defined.

(** ** Where the header and the footer are cut *)

(** Without anchors the position of the string plays no part. *)
Lemma rmatch_position {R} n0 n0' r : anchorFree r = true ->
  forall s caps (k : list Z -> captures -> option R),
    rmatch n0 r s caps k = rmatch n0' r s caps k.
Proof.
  induction r as [|cs|r1 IH1 r2 IH2|r1 IH1 r2 IH2|greedy r1 IH1|n r1 IH1| |m];
    cbn [anchorFree]; intros Haf s caps k; try discriminate.
  - done.
  - done.
  - apply andb_prop in Haf as [Ha1 Ha2].
    change (rmatch n0 r1 s caps (fun s' c' => rmatch n0 r2 s' c' k)
            = rmatch n0' r1 s caps (fun s' c' => rmatch n0' r2 s' c' k)).
    rewrite (IH1 Ha1). apply rmatch_cont_ext. intros s' c' _. by apply IH2.
  - apply andb_prop in Haf as [Ha1 Ha2].
    change (orElse (rmatch n0 r1 s caps k) (rmatch n0 r2 s caps k)
            = orElse (rmatch n0' r1 s caps k) (rmatch n0' r2 s caps k)).
    by rewrite (IH1 Ha1), (IH2 Ha2).
  - change (starLoop (rmatch n0 r1) greedy k (length s) s caps
            = starLoop (rmatch n0' r1) greedy k (length s) s caps).
    generalize (length s) as fuel. intros fuel. revert s caps.
    induction fuel as [|fuel IHf]; intros s caps; cbn [starLoop]; [done|].
    rewrite (IH1 Haf).
    rewrite (rmatch_cont_ext n0' r1 s caps _
               (fun s' caps' =>
                  if (length s' <? length s)%nat
                  then starLoop (rmatch n0' r1) greedy k fuel s' caps'
                  else None)); [done|].
    intros s' c' _. destruct (length s' <? length s)%nat; [apply IHf|done].
  - change (rmatch n0 r1 s caps (fun s' caps' =>
              k s' ((n, take (length s - length s') s) :: caps'))
            = rmatch n0' r1 s caps (fun s' caps' =>
              k s' ((n, take (length s - length s') s) :: caps'))).
    by apply IH1.
Qed.

Lemma lastSuffix_app {R} (k : list Z -> captures -> option R) s caps x :
  lastSuffix k s caps = Some x ->
  forall pre, lastSuffix k (pre ++ s) caps = Some x.
Proof.
  intros Hs. induction pre as [|c pre IH]; [done|].
  cbn [app lastSuffix]. by rewrite IH.
Qed.

Lemma lastSuffix_first {R} (k : list Z -> captures -> option R) c s caps :
  (forall s', s' `suffix_of` s -> k s' caps = None) ->
  lastSuffix k (c :: s) caps = k (c :: s) caps.
Proof.
  intros Hn. cbn [lastSuffix].
  destruct (lastSuffix k s caps) as [x|] eqn:E; [|done].
  apply lastSuffix_Some in E as (s1 & Hs1 & Hk & _).
  rewrite Hn in Hk; done.
Qed.

(** X28: the header is cut at the last start marker: when the text ends in a
    piece at whose front the marker with its asterisks matches, and the
    marker matches nowhere later in that piece, everything before the piece
    and the match itself are removed, and what followed the match is
    kept. *)
Theorem header_cut_at_last_marker (pre : list Z) (c : Z) (m rest : list Z) caps :
  matchAt O headerTail (c :: m) = Some (rest, caps) ->
  frontFree headerTail m ->
  replaceFirst headerRegex [] (pre ++ c :: m) = rest.
Proof.
  intros Hm Hfree. rewrite replace_header.
  rewrite (lastSuffix_app _ (c :: m) [] (rest, caps)); [done|].
  rewrite lastSuffix_first.
  - rewrite <- Hm. unfold matchAt. by apply rmatch_position.
  - intros s' Hs.
    destruct (rmatch _ headerTail s' [] matched) as [x|] eqn:E; [|done].
    exfalso. apply (Hfree s' Hs).
    eapply matchesFront_intro; [reflexivity|by rewrite E].
Qed.

Lemma header_cut_at_last_marker_witness :
  replaceFirst headerRegex []
    (js "start of project gutenberg *" ++ [LF] ++ js "*** "
     ++ 83 :: (js "TART OF THIS PROJECT GUTENBERG EBOOK SEEDS ***" ++ [LF]
               ++ js "Body"))
  = [LF] ++ js "Body".
Proof.
  apply (header_cut_at_last_marker
           (js "start of project gutenberg *" ++ [LF] ++ js "*** ") 83
           (js "TART OF THIS PROJECT GUTENBERG EBOOK SEEDS ***" ++ [LF]
            ++ js "Body")
           ([LF] ++ js "Body")
           [(1%nat, js "THIS "); (2%nat, js "IS")]).
  - vm_compute. reflexivity.
  - apply matchesNowhere_frontFree. vm_compute. reflexivity.
Defined.

(** X29: the footer is cut at the first place from which asterisks, white
    space and the end marker match: what stands before that place is kept,
    the asterisks and the white space before the marker go with it, and
    nothing after it is kept. *)
Theorem footer_cut_at_first_marker (pre m : list Z) :
  matchesFront footerCore m ->
  (forall s, s `suffix_of` pre ++ m -> (length m < length s)%nat ->
             ~ matchesFront footerCore s) ->
  replaceFirst footerRegex [] (pre ++ m) = pre.
Proof.
  intros Hm Hfirst. unfold replaceFirst, exec.
  rewrite execFrom_skip.
  - destruct (footer_matchAt_intro (length (pre ++ m)) m Hm) as [[rest caps] E].
    apply footer_matchAt_inv in E as HE. destruct HE as [-> _].
    rewrite (execFrom_hit _ _ _ _ _ _ E). cbn [Nat.add].
    by rewrite take_app_length, !app_nil_r.
  - intros s' Hs Hl.
    destruct (matchAt _ footerRegex s') as [[rest caps]|] eqn:E; [|done].
    exfalso. apply footer_matchAt_inv in E as [_ E].
    by apply (Hfirst s' Hs Hl).
Qed.

(** A way to check by evaluation that a pattern matches at no place before
    a piece. *)
Lemma no_earlier_match_check r (pre m : list Z) :
  forallb (fun j => match matchAt O r (drop j (pre ++ m)) with
                    | None => true
                    | Some _ => false
                    end) (seq 0 (length pre)) = true ->
  forall s, s `suffix_of` pre ++ m -> (length m < length s)%nat ->
            ~ matchesFront r s.
Proof.
  rewrite forallb_forall. intros Hall s [p Hs] Hl [x Hx].
  assert (Hin : In (length p) (seq 0 (length pre))).
  { apply in_seq. apply (f_equal length) in Hs. rewrite !length_app in Hs. lia. }
  apply Hall in Hin. rewrite Hs, drop_app_length, Hx in Hin. done.
Qed.

Lemma footer_cut_at_first_marker_witness :
  replaceFirst footerRegex []
    ((js "Body" ++ [LF]) ++ (js "*** END OF THE PROJECT GUTENBERG EBOOK ***"
                             ++ [LF] ++ js "licence"))
  = js "Body" ++ [LF].
Proof.
  apply footer_cut_at_first_marker.
  - unfold matchesFront. vm_compute. eexists. reflexivity.
  - apply no_earlier_match_check. vm_compute. reflexivity.
Defined.
